(** * Dye-sequence finder: mask arithmetic and breadth-first search

    A shallow embedding of the search core of [uhhhhh.py] (the mask
    arithmetic, the breadth-first search over masks, and the two places
    of the web layer that feed it: the before-request hook and the
    target parsing of the home route), followed by the properties the
    specification states about it.

    Python integers are unbounded, so every number is a [Z].  Tuples of
    three channels are triples, the dye tokens are the strings of the
    source, the [visited] set is a [gset], the queue a list used first-in
    first-out, and [app.config] / [session] are explicit values read by
    the functions that read them in the source. *)

From Stdlib Require Import ZArith Lia Ascii QArith Qround Qminmax.
From stdpp Require Import gmap strings list pretty sorting.

Local Open Scope Z_scope.
#[local] Set Warnings "-clear-no-such-hyp".

(** * Part I: the program *)

(** ** Exceptions *)

Inductive exn : Set := ValueError | KeyError.

Inductive exc (A : Type) : Type :=
| Returned (a : A)
| Raised (e : exn).
Arguments Returned {A} a.
Arguments Raised {A} e.

Definition exc_bind {A B : Type} (m : exc A) (k : A → exc B) : exc B :=
  match m with
  | Returned a => k a
  | Raised e => Raised e
  end.

Notation "'let*' x ':=' m 'in' k" := (exc_bind m (fun x => k))
  (at level 10, x pattern, m at level 100, k at level 200).

(** [try: e except Exception: d] *)
Definition try_except {A : Type} (m : exc A) (d : A) : A :=
  match m with
  | Returned a => a
  | Raised _ => d
  end.

(** ** Configuration and session *)

Abbreviation Triple := (Z * Z * Z)%type.

Record Config : Type := {
  START_RGB : Triple;
  ADD_VALUE : Z;
  SUB_VALUE : Z;
  MAX_DEPTH : Z
}.

(** The values of [app.config.update] at import time. *)
Definition initial_config : Config :=
  {| START_RGB := (241, 219, 29);
     ADD_VALUE := 32;
     SUB_VALUE := 16;
     MAX_DEPTH := 48 |}.

(** What a session cookie can hold under a key: a scalar (an integer or
    a piece of text) or a list/tuple of scalars. *)
Inductive Scalar : Type :=
| SInt (n : Z)
| SStr (s : string).

Inductive SessionValue : Type :=
| VScalar (x : Scalar)
| VList (xs : list Scalar).

Record App : Type := {
  config : Config;
  session : gmap string SessionValue
}.

Definition DYES : list string := ["red"; "green"; "blue"; "black"].

(** ** Mask math *)

Definition clamp255 (x : Z) : Z := Z.max 0 (Z.min 255 x).

Definition dye_vector (dye : string) (add_val sub_val : Z) : exc Triple :=
  if String.eqb dye "red" then Returned (add_val, - sub_val, - sub_val)
  else if String.eqb dye "green" then Returned (- sub_val, add_val, - sub_val)
  else if String.eqb dye "blue" then Returned (- sub_val, - sub_val, add_val)
  else if String.eqb dye "black" then Returned (-32, -32, -32)
  else Raised ValueError.

Definition apply_dye_to_mask (app : App) (mask : Triple) (dye : string)
  : exc Triple :=
  let add_val := ADD_VALUE (config app) in
  let sub_val := SUB_VALUE (config app) in
  let* dv := dye_vector dye add_val sub_val in
  Returned (clamp255 (mask.1.1 + dv.1.1),
            clamp255 (mask.1.2 + dv.1.2),
            clamp255 (mask.2 + dv.2)).

(** [int(round(n / 255.0))] for an integer [n].  The quotient [n/255] is
    never halfway between two integers ([2n = 255(2k+1)] has an even and
    an odd side), so the tie rule of [round] is never used and the
    nearest integer is [floor((2n + 255) / 510)].  The double-precision
    quotient lies within [2^-53 |n/255|] of the exact one, which is at
    least [1/510] away from every half-integer, so the interpreter's
    result is this one for every [|n| < 2^40], that is for every base
    channel below [2^32] in absolute value, far beyond what channels in
    [0,255] produce.  For larger products the floating-point quotient of
    the interpreter is not followed; it has the sign of [n] and lies
    beyond 256 in absolute value, as this one does, so [clamp255] makes
    255 or 0 of both. *)
Definition round_div255 (n : Z) : Z := (2 * n + 255) / 510.

(** The division by [255.0] first converts the integer product to a
    float, which raises [OverflowError] for a product beyond the range
    of the doubles.  The function gives what the source returns where the
    three products convert; [projects], in Part II, says that they do,
    and the properties that speak of a returned search result take it as
    their hypothesis for the start colour. *)
Definition apply_mask_to_color (base_rgb mask : Triple) : Triple :=
  let r := round_div255 (base_rgb.1.1 * mask.1.1) in
  let g := round_div255 (base_rgb.1.2 * mask.1.2) in
  let b := round_div255 (base_rgb.2 * mask.2) in
  (clamp255 r, clamp255 g, clamp255 b).

Definition manhattan (a b : Triple) : Z :=
  Z.abs (a.1.1 - b.1.1) + Z.abs (a.1.2 - b.1.2) + Z.abs (a.2 - b.2).

(** ** Search (BFS over mask space) *)

Abbreviation Node := (Triple * list string)%type.

(** The local variables of [find_sequence_to_target] that live across
    iterations of its [while] loop; [broke] records that the loop was
    left through [break]. *)
Record State : Type := {
  q : list Node;
  visited : gset Triple;
  best_mask : Triple;
  best_seq : list string;
  best_color : Triple;
  best_diff : Z;
  broke : bool
}.

Definition start_mask : Triple := (255, 255, 255).

(** The [for dye in DYES] loop: the queue and the visited set after the
    remaining dyes [dyes] have been tried on [mask]. *)
Fixpoint expand (app : App) (mask : Triple) (seq : list string)
    (dyes : list string) (vis : gset Triple) (queue : list Node)
  : exc (gset Triple * list Node) :=
  match dyes with
  | [] => Returned (vis, queue)
  | dye :: rest =>
      let* nxt_mask := apply_dye_to_mask app mask dye in
      if decide (nxt_mask ∈ vis)
      then expand app mask seq rest vis queue
      else expand app mask seq rest ({[nxt_mask]} ∪ vis)
                  (queue ++ [(nxt_mask, seq ++ [dye])])
  end.

(** The loop is over when it was left by [break] or the queue is empty. *)
Definition finished (s : State) : bool :=
  broke s || bool_decide (q s = []).

(** Assignments to the loop's variables. *)
Definition with_queue (s : State) (vis : gset Triple) (queue : list Node)
  : State :=
  {| q := queue; visited := vis;
     best_mask := best_mask s; best_seq := best_seq s;
     best_color := best_color s; best_diff := best_diff s;
     broke := broke s |}.

Definition with_best (s : State) (mask : Triple) (seq : list string)
    (color : Triple) (diff : Z) : State :=
  {| q := q s; visited := visited s;
     best_mask := mask; best_seq := seq;
     best_color := color; best_diff := diff;
     broke := broke s |}.

Definition with_break (s : State) : State :=
  {| q := q s; visited := visited s;
     best_mask := best_mask s; best_seq := best_seq s;
     best_color := best_color s; best_diff := best_diff s;
     broke := true |}.

(** One iteration of the [while q:] loop: pop the front node, skip it
    when it is too deep, otherwise compare it with the best node so far,
    leave the loop on an improvement to distance 0, and else try the
    four dyes. *)
Definition loop_body (app : App) (target_rgb : Triple) (max_depth : Z)
    (s : State) : exc State :=
  match q s with
  | [] => Returned s
  | (mask, seq) :: q' =>
      let s := with_queue s (visited s) q' in
      if Z.of_nat (length seq) >? max_depth then Returned s
      else
        let color := apply_mask_to_color (START_RGB (config app)) mask in
        let diff := manhattan color target_rgb in
        let improved := diff <? best_diff s in
        let s := if improved then with_best s mask seq color diff else s in
        if improved && (best_diff s =? 0) then Returned (with_break s)
        else
          let* vq := expand app mask seq DYES (visited s) (q s) in
          Returned (with_queue s vq.1 vq.2)
  end.

(** The [while] loop, run for at most [2 ^ n] iterations. *)
Fixpoint while_loop (app : App) (target_rgb : Triple) (max_depth : Z)
    (n : nat) (s : State) : exc State :=
  if finished s then Returned s
  else
    match n with
    | O => loop_body app target_rgb max_depth s
    | S n' =>
        let* s' := while_loop app target_rgb max_depth n' s in
        while_loop app target_rgb max_depth n' s'
    end.

(** The state on entry to the loop. *)
Definition initial_state (app : App) (target_rgb : Triple) : State :=
  let start_rgb := START_RGB (config app) in
  let start_color := apply_mask_to_color start_rgb start_mask in
  {| q := [(start_mask, [])];
     visited := {[start_mask]};
     best_mask := start_mask;
     best_seq := [];
     best_color := start_color;
     best_diff := manhattan start_color target_rgb;
     broke := false |}.

Abbreviation SearchResult := (list string * Triple * Triple * Z)%type.

Definition result_of (s : State) : SearchResult :=
  (best_seq s, best_mask s, best_color s, best_diff s).

(** The depth the search works with: the argument, or the configured
    value when the argument is [None]. *)
Definition effective_depth (app : App) (max_depth : option Z) : Z :=
  match max_depth with
  | Some d => d
  | None => MAX_DEPTH (config app)
  end.

(** [2 ^ 24 = 256 ^ 3] iterations are allowed; [search_terminates] below
    shows the loop is over by then. *)
Definition find_sequence_to_target (app : App) (target_rgb : Triple)
    (max_depth : option Z) : exc SearchResult :=
  let max_depth := effective_depth app max_depth in
  let* s := while_loop app target_rgb max_depth 24 (initial_state app target_rgb) in
  Returned (result_of s).

(** ** The web layer around the search *)

(** Decimal numerals: an optional sign and at least one digit.  On these
    strings this is the value of the interpreter's [int]; [int] accepts
    more (surrounding white space, underscores between digits).  It is
    used for concrete examples only. *)
Definition digit_of (c : ascii) : option Z :=
  let n := Z.of_N (N_of_ascii c) - 48 in
  if (0 <=? n) && (n <=? 9) then Some n else None.

Fixpoint digits (acc : Z) (s : string) : exc Z :=
  match s with
  | EmptyString => Returned acc
  | String c rest =>
      match digit_of c with
      | Some d => digits (10 * acc + d) rest
      | None => Raised ValueError
      end
  end.

Definition unsigned_decimal (s : string) : exc Z :=
  match s with
  | EmptyString => Raised ValueError
  | _ => digits 0 s
  end.

Definition int_of_decimal (s : string) : exc Z :=
  match s with
  | String "-"%char rest => let* n := unsigned_decimal rest in Returned (- n)
  | String "+"%char rest => unsigned_decimal rest
  | _ => unsigned_decimal s
  end.

Definition with_START_RGB (app : App) (rgb : Triple) : App :=
  {| config := {| START_RGB := rgb;
                  ADD_VALUE := ADD_VALUE (config app);
                  SUB_VALUE := SUB_VALUE (config app);
                  MAX_DEPTH := MAX_DEPTH (config app) |};
     session := session app |}.

Section WebLayer.

(** The interpreter's [int] on a [str]; it is not code of this
    repository, and everything below holds whatever it returns. *)
Context (py_int : string → exc Z).

Definition int_of_scalar (x : Scalar) : exc Z :=
  match x with
  | SInt n => Returned n
  | SStr s => py_int s
  end.

(** The [before_request] hook: a list or tuple of length 3 under
    ["start_rgb"] whose items all convert replaces [START_RGB]; anything
    else leaves the configuration as it is. *)
Definition _sync_start_rgb_from_session (app : App) : App :=
  match session app !! "start_rgb" with
  | Some (VList [s0; s1; s2]) =>
      try_except
        (let* r := int_of_scalar s0 in
         let* g := int_of_scalar s1 in
         let* b := int_of_scalar s2 in
         Returned (with_START_RGB app (r, g, b)))
        app
  | _ => app
  end.

(** [request.form[k]] *)
Definition form_field (form : gmap string string) (k : string) : exc string :=
  match form !! k with
  | Some v => Returned v
  | None => Raised KeyError
  end.

(** [int(request.form[k])] *)
Definition int_field (form : gmap string string) (k : string) : exc Z :=
  let* v := form_field form k in py_int v.

(** The target of a POST to the home route. *)
Definition home_target (form : gmap string string) : Triple :=
  try_except
    (let* r := int_field form "r" in
     let* g := int_field form "g" in
     let* b := int_field form "b" in
     Returned (r, g, b))
    (0, 0, 0).

(** The home route on a POST, up to the call of the search: the target
    it searches for and what the search returns.  What follows in the
    source (the rendering and the history kept in the session) does not
    feed back into the search. *)
Definition home (app : App) (form : gmap string string)
  : exc (Triple * SearchResult) :=
  let target := home_target form in
  let* res := find_sequence_to_target app target None in
  Returned (target, res).

End WebLayer.

(** The application as it starts: the import-time configuration and an
    empty session. *)
Definition initial_app : App := {| config := initial_config; session := ∅ |}.

(** ** Presentation *)

(** [(token, len(list(grp))) for token, grp in groupby(seq)]: the runs
    of equal neighbours of [seq], each with its token and its length. *)
Fixpoint groupby (seq : list string) : list (string * nat) :=
  match seq with
  | [] => []
  | token :: rest =>
      match groupby rest with
      | (t, n) :: groups =>
          if String.eqb token t then (t, S n) :: groups
          else (token, 1%nat) :: (t, n) :: groups
      | [] => [(token, 1%nat)]
      end
  end.

Definition colors : gmap string string :=
  {[ "red" := "#ff4d4d"; "green" := "#4dff4d";
     "blue" := "#4da6ff"; "black" := "#ffffff" ]}.

(** The double-quote character. *)
Definition dquote : string := String (ascii_of_nat 34) EmptyString.

(** The [span] element appended to [parts] for a run. *)
Definition span (token : string) (n : nat) : string :=
  let hexcol := default "#fff" (colors !! token) in
  let style :=
    "color:" +:+ hexcol +:+ "; font-size:22px; margin-right:12px;"
    +:+ "text-shadow:-1px -1px 0 #000,1px -1px 0 #000,"
    +:+ "-1px 1px 0 #000,1px 1px 0 #000;" in
  "<span style=" +:+ dquote +:+ style +:+ dquote +:+ ">"
  +:+ pretty n +:+ "x " +:+ token +:+ "</span>".

(** [sep.join(parts)] *)
Fixpoint join (sep : string) (parts : list string) : string :=
  match parts with
  | [] => EmptyString
  | [part] => part
  | part :: rest => part +:+ sep +:+ join sep rest
  end.

Definition pretty_sequence (seq : list string) : string :=
  match seq with
  | [] => "No dyes applied"
  | _ => join " " (map (λ g, span g.1 g.2) (groupby seq))
  end.

(** ** The lists kept in the session and the routes on them *)

(** An entry of [session["history"]]; the fields are the keys of the
    dictionary the home route appends. *)
Record HistoryEntry : Type := {
  h_sequence : string;
  h_final_mask : Triple;
  h_final_color : Triple;
  h_target : Triple;
  h_diff : Z;
  h_ts : string
}.

(** An entry of [session["saved"]]. *)
Record SavedEntry : Type := {
  v_sequence : string;
  v_final_mask : Triple;
  v_final_color : Triple;
  v_target : Triple;
  v_diff : Z
}.

(** An entry of [session["base_rgbs"]]. *)
Record Preset : Type := {
  preset_name : string;
  preset_rgb : Triple
}.

(** [l[-10:]] *)
Definition last_ten {A : Type} (l : list A) : list A :=
  drop (length l - 10) l.

(** [items.pop(idx)] under the guard [0 <= idx < len(items)]; without
    it the list is left as it is.  This is the body of the
    [delete_saved] route, and of the preset deletion in [settings]. *)
Definition pop_if_in_range {A : Type} (items : list A) (idx : Z) : list A :=
  if (0 <=? idx) && (idx <? Z.of_nat (length items))
  then delete (Z.to_nat idx) items
  else items.

Definition delete_saved (items : list SavedEntry) (idx : Z) : list SavedEntry :=
  pop_if_in_range items idx.

(** [str] of a tuple of three integers, as an f-string prints it. *)
Definition str_triple (t : Triple) : string :=
  "(" +:+ pretty t.1.1 +:+ ", " +:+ pretty t.1.2 +:+ ", " +:+ pretty t.2 +:+ ")".

(** [sub in s] on strings. *)
Fixpoint contains (sub s : string) : bool :=
  String.prefix sub s
  || match s with
     | EmptyString => false
     | String _ rest => contains sub rest
     end.

(** The items the [history] route renders, for the query [q] it is left
    with after [strip]: filtered by the text of their target when [q] is
    not empty, newest first. *)
Definition history (q : string) (items : list HistoryEntry) : list HistoryEntry :=
  let items :=
    match q with
    | EmptyString => items
    | _ => filter (λ it, Is_true (contains q (str_triple (h_target it)))) items
    end in
  reverse items.

Definition with_ADD_VALUE (app : App) (v : Z) : App :=
  {| config := {| START_RGB := START_RGB (config app);
                  ADD_VALUE := v;
                  SUB_VALUE := SUB_VALUE (config app);
                  MAX_DEPTH := MAX_DEPTH (config app) |};
     session := session app |}.

Definition with_SUB_VALUE (app : App) (v : Z) : App :=
  {| config := {| START_RGB := START_RGB (config app);
                  ADD_VALUE := ADD_VALUE (config app);
                  SUB_VALUE := v;
                  MAX_DEPTH := MAX_DEPTH (config app) |};
     session := session app |}.

Definition with_MAX_DEPTH (app : App) (v : Z) : App :=
  {| config := {| START_RGB := START_RGB (config app);
                  ADD_VALUE := ADD_VALUE (config app);
                  SUB_VALUE := SUB_VALUE (config app);
                  MAX_DEPTH := v |};
     session := session app |}.

(** [session["start_rgb"] = rgb] for a tuple of three integers. *)
Definition with_session_start_rgb (app : App) (rgb : Triple) : App :=
  {| config := config app;
     session := <["start_rgb" := VList [SInt rgb.1.1; SInt rgb.1.2; SInt rgb.2]]>
                  (session app) |}.

Section Routes.

(** The interpreter's [int] and [strip] on a [str]. *)
Context (py_int : string → exc Z) (py_strip : string → string).

(** The session part of a POST to the home route, after the search: the
    new history (at most its last ten entries) and the new saved list.
    [now] is the time stamp the entry gets. *)
Definition home_lists (app : App) (form : gmap string string) (now : string)
    (hist : list HistoryEntry) (saved : list SavedEntry)
  : exc (list HistoryEntry * list SavedEntry) :=
  let* tr := home py_int app form in
  let target := tr.1 in
  let steps := tr.2.1.1.1 in
  let final_mask := tr.2.1.1.2 in
  let final_color := tr.2.1.2 in
  let diff := tr.2.2 in
  let sequence := pretty_sequence steps in
  let hist := hist ++ [{| h_sequence := sequence; h_final_mask := final_mask;
                          h_final_color := final_color; h_target := target;
                          h_diff := diff; h_ts := now |}] in
  let saved :=
    if decide (form !! "action" = Some "Save")
    then saved ++ [{| v_sequence := sequence; v_final_mask := final_mask;
                      v_final_color := final_color; v_target := target;
                      v_diff := diff |}]
    else saved in
  Returned (last_ten hist, saved).

(** [int(request.form.get(k, d))] for an integer default [d]. *)
Definition int_field_or (form : gmap string string) (k : string) (d : Z)
  : exc Z :=
  match form !! k with
  | Some v => py_int v
  | None => Returned d
  end.

(** The [Save Settings] action: the assignments of the [try] block up
    to the first conversion that raises. *)
Definition settings_save_settings (app : App) (form : gmap string string)
  : App :=
  match (let* sr := int_field py_int form "sr" in
         let* sg := int_field py_int form "sg" in
         let* sb := int_field py_int form "sb" in
         Returned (sr, sg, sb)) with
  | Raised _ => app
  | Returned rgb =>
      let app := with_START_RGB app rgb in
      let app := with_session_start_rgb app rgb in
      match int_field py_int form "add" with
      | Raised _ => app
      | Returned a =>
          let app := with_ADD_VALUE app a in
          match int_field py_int form "sub" with
          | Raised _ => app
          | Returned sv =>
              let app := with_SUB_VALUE app sv in
              match int_field py_int form "depth" with
              | Raised _ => app
              | Returned d => with_MAX_DEPTH app d
              end
          end
      end
  end.

(** The [Save Base RGB] action on the presets. *)
Definition settings_save_base_rgb (presets : list Preset)
    (form : gmap string string) : list Preset :=
  let name := py_strip (default EmptyString (form !! "preset_name")) in
  try_except
    (let* r := int_field_or form "preset_r" 0 in
     let r := Z.max 0 (Z.min 255 r) in
     let* g := int_field_or form "preset_g" 0 in
     let g := Z.max 0 (Z.min 255 g) in
     let* b := int_field_or form "preset_b" 0 in
     let b := Z.max 0 (Z.min 255 b) in
     match name with
     | EmptyString => Returned presets
     | _ => Returned (presets ++ [{| preset_name := name; preset_rgb := (r, g, b) |}])
     end)
    presets.

(** The [Use Preset] action on the configuration and the session. *)
Definition settings_use_preset (app : App) (presets : list Preset)
    (form : gmap string string) : App :=
  match int_field_or form "preset_idx" (-1) with
  | Raised _ => app
  | Returned idx =>
      if (0 <=? idx) && (idx <? Z.of_nat (length presets)) then
        match presets !! Z.to_nat idx with
        | Some p =>
            let rgb := preset_rgb p in
            with_session_start_rgb (with_START_RGB app rgb) rgb
        | None => app
        end
      else app
  end.

(** The [Delete Preset] action on the presets. *)
Definition settings_delete_preset (presets : list Preset)
    (form : gmap string string) : list Preset :=
  match int_field_or form "preset_idx" (-1) with
  | Raised _ => presets
  | Returned idx => pop_if_in_range presets idx
  end.

(** A POST to the settings route: what it does to the application and
    to the presets of the session. *)
Definition settings (app : App) (presets : list Preset)
    (form : gmap string string) : App * list Preset :=
  let action := default EmptyString (form !! "action") in
  if String.eqb action "Save Settings"
  then (settings_save_settings app form, presets)
  else if String.eqb action "Save Base RGB"
  then (app, settings_save_base_rgb presets form)
  else if String.eqb action "Use Preset"
  then (settings_use_preset app presets form, presets)
  else if String.eqb action "Delete Preset"
  then (app, settings_delete_preset presets form)
  else (app, presets).

End Routes.

(** ** The playback script of the result page *)

(** The script's numbers are doubles.  [addVal] and [subVal] are read
    from the integers the page is rendered with, and they are these
    integers for every integer of at most [2 ^ 53] in absolute value
    ([js_exact], in Part II); a larger one is rounded to a double by the
    script, which [js_dv] does not follow.  The channels of a mask lie in
    [0,255], and the sum of such a channel and a delta comes out of
    [clamp255] as the exact sum does, since rounding a sum to a double
    keeps it on its side of 0 and of 255. *)
Definition js_dv (name : string) (addVal subVal : Z) : Triple :=
  if String.eqb name "red" then (addVal, - subVal, - subVal)
  else if String.eqb name "green" then (- subVal, addVal, - subVal)
  else if String.eqb name "blue" then (- subVal, - subVal, addVal)
  else if String.eqb name "black" then (-32, -32, -32)
  else (0, 0, 0).

Definition js_clamp255 (x : Z) : Z := Z.max 0 (Z.min 255 x).

(** [Math.round(clamp255(n / 255))] for an integer [n]: the quotient is
    a fraction and is clamped as such; [Math.round(x)] is the floor of
    [x + 1/2]. *)
Definition js_round_clamp255_div255 (n : Z) : Z :=
  Qfloor (Qmax 0 (Qmin 255 (inject_Z n / 255)) + (1 # 2))%Q.

Definition js_applyMaskToColor (rgb mask : Triple) : Triple :=
  (js_round_clamp255_div255 (rgb.1.1 * mask.1.1),
   js_round_clamp255_div255 (rgb.1.2 * mask.1.2),
   js_round_clamp255_div255 (rgb.2 * mask.2)).

(** One tick of the timer: the mask after the next step. *)
Definition js_tick (addVal subVal : Z) (mask : Triple) (name : string) : Triple :=
  let d := js_dv name addVal subVal in
  (js_clamp255 (mask.1.1 + d.1.1),
   js_clamp255 (mask.1.2 + d.1.2),
   js_clamp255 (mask.2 + d.2)).

(** The colours the ticks paint, from the mask [mask] on. *)
Fixpoint js_ticks (startRGB : Triple) (addVal subVal : Z) (mask : Triple)
    (steps : list string) : list Triple :=
  match steps with
  | [] => []
  | name :: rest =>
      let mask := js_tick addVal subVal mask name in
      js_applyMaskToColor startRGB mask
      :: js_ticks startRGB addVal subVal mask rest
  end.

(** The colours painted after a click on the play button, in order: the
    start colour, then one colour per step. *)
Definition js_play (startRGB : Triple) (addVal subVal : Z)
    (steps : list string) : list Triple :=
  js_applyMaskToColor startRGB (255, 255, 255)
  :: js_ticks startRGB addVal subVal (255, 255, 255) steps.

(** * Part II: the vocabulary of the properties *)

(** ** Replaying a sequence *)

(** Apply the dyes of [seq] to [mask], one after the other. *)
Fixpoint replay (app : App) (mask : Triple) (seq : list string) : exc Triple :=
  match seq with
  | [] => Returned mask
  | dye :: rest =>
      let* m := apply_dye_to_mask app mask dye in
      replay app m rest
  end.

(** ** Ranges *)

Definition in_range (t : Triple) : Prop :=
  (0 ≤ t.1.1 ≤ 255) ∧ (0 ≤ t.1.2 ≤ 255) ∧ (0 ≤ t.2 ≤ 255).

(** ** Where the projection returns *)

(** [n / 255.0] converts the integer [n] to a float before it divides.
    The conversion rounds to the nearest double and raises
    [OverflowError] when that is no finite one, which is the case from
    [2 ^ 1024 - 2 ^ 970] on, halfway between the largest double and
    [2 ^ 1024]. *)
Definition fits_float (n : Z) : bool := Z.abs n <? 2 ^ 1024 - 2 ^ 970.

(** The three products of [apply_mask_to_color base_rgb mask] convert:
    the call returns. *)
Definition projects (base_rgb mask : Triple) : bool :=
  fits_float (base_rgb.1.1 * mask.1.1)
  && fits_float (base_rgb.1.2 * mask.1.2)
  && fits_float (base_rgb.2 * mask.2).

(** An integer that the script holds as it is. *)
Definition js_exact (n : Z) : bool := Z.abs n <=? 2 ^ 53.

(** ** The mask space is finite *)

Definition cube (n : Z) : list Triple :=
  list_prod (list_prod (seqZ 0 n) (seqZ 0 n)) (seqZ 0 n).

Definition mask_space : list Triple := cube 256.

(** ** Runs of the loop *)

Section Runs.

Context (app : App) (target_rgb : Triple) (max_depth : Z).

(** [step s n s']: the loop is not over in [s], its next iteration
    dequeues [n] and ends in [s']. *)
Definition step (s : State) (n : Node) (s' : State) : Prop :=
  finished s = false
  ∧ head (q s) = Some n
  ∧ loop_body app target_rgb max_depth s = Returned s'.

(** [reaches trace s]: from the state on entry to the loop, the
    iterations that dequeue the nodes of [trace], in this order, lead to
    [s]. *)
Inductive reaches : list Node → State → Prop :=
| reaches_init : reaches [] (initial_state app target_rgb)
| reaches_step trace s n s' :
    reaches trace s → step s n s' → reaches (trace ++ [n]) s'.

(** The colour and distance the loop computes for a node. *)
Definition color_of (n : Node) : Triple :=
  apply_mask_to_color (START_RGB (config app)) n.1.

Definition diff_of (n : Node) : Z := manhattan (color_of n) target_rgb.

(** The three ways an iteration can go. *)
Inductive step_kind (s : State) (n : Node) (s' : State) : Prop :=
| step_skip q' :
    q s = n :: q' →
    max_depth < Z.of_nat (length n.2) →
    s' = with_queue s (visited s) q' →
    step_kind s n s'
| step_exact q' :
    q s = n :: q' →
    Z.of_nat (length n.2) ≤ max_depth →
    diff_of n < best_diff s →
    diff_of n = 0 →
    s' = with_break
           (with_best (with_queue s (visited s) q') n.1 n.2 (color_of n) 0) →
    step_kind s n s'
| step_expand q' new :
    q s = n :: q' →
    Z.of_nat (length n.2) ≤ max_depth →
    ¬ (diff_of n < best_diff s ∧ diff_of n = 0) →
    NoDup new.*1 →
    (∀ m, m ∈ new.*1 → m ∉ visited s) →
    (∀ c, c ∈ new → ∃ dye, dye ∈ DYES
        ∧ apply_dye_to_mask app n.1 dye = Returned c.1
        ∧ c.2 = n.2 ++ [dye]) →
    s' = with_queue
           (if diff_of n <? best_diff s
            then with_best (with_queue s (visited s) q') n.1 n.2
                   (color_of n) (diff_of n)
            else with_queue s (visited s) q')
           (list_to_set new.*1 ∪ visited s) (q' ++ new) →
    step_kind s n s'.

(** *** Invariants of the loop's variables *)

Record invariant (s : State) : Prop := {
  inv_replay_q :
    ∀ n, n ∈ q s → replay app start_mask n.2 = Returned n.1;
  inv_replay_best :
    replay app start_mask (best_seq s) = Returned (best_mask s);
  inv_depth :
    best_seq s = [] ∨ Z.of_nat (length (best_seq s)) ≤ max_depth;
  inv_color :
    best_color s
    = apply_mask_to_color (START_RGB (config app)) (best_mask s);
  inv_diff : best_diff s = manhattan (best_color s) target_rgb;
  inv_range : ∀ m, m ∈ visited s → in_range m
}.

(** *** Invariants relating the dequeued nodes, the queue and [visited] *)

Record trace_invariant (trace : list Node) (s : State) : Prop := {
  tinv_nodup : NoDup (trace ++ q s).*1;
  tinv_visited : ∀ n, n ∈ trace ++ q s → n.1 ∈ visited s;
  tinv_count : (length trace + length (q s))%nat = size (visited s);
  tinv_start : ∀ n, n ∈ trace ++ q s → n = (start_mask, []) ∨ n.2 ≠ []
}.

End Runs.

Definition same_search_config (app1 app2 : App) : Prop :=
  START_RGB (config app1) = START_RGB (config app2)
  ∧ ADD_VALUE (config app1) = ADD_VALUE (config app2)
  ∧ SUB_VALUE (config app1) = SUB_VALUE (config app2).

(** The dequeued nodes that are compared with the best node: those not
    skipped for their depth. *)
Definition evaluated (max_depth : Z) (trace : list Node) : list Node :=
  filter (λ n, Z.of_nat (length n.2) ≤ max_depth) trace.

(** [a] has a sequence no longer than [b]'s. *)
Definition no_longer (a b : Node) : Prop := (length a.2 ≤ length b.2)%nat.

(** Writing the runs out again: each token as often as its run is long. *)
Definition expand_runs (groups : list (string * nat)) : list string :=
  flat_map (λ g, replicate g.2 g.1) groups.

(** * Part III: lemmas *)

(** ** Ranges and replay *)

Lemma clamp255_range x : 0 ≤ clamp255 x ≤ 255.
Proof. unfold clamp255. lia. Qed.

Lemma clamp255_id x : 0 ≤ x ≤ 255 → clamp255 x = x.
Proof. unfold clamp255. lia. Qed.

Lemma manhattan_nonneg a b : 0 ≤ manhattan a b.
Proof. unfold manhattan. lia. Qed.


Lemma apply_mask_to_color_in_range base mask :
  in_range (apply_mask_to_color base mask).
Proof.
  unfold in_range, apply_mask_to_color; simpl.
  repeat split; apply clamp255_range.
Qed.

Lemma round_div255_full x : round_div255 (x * 255) = x.
Proof.
  unfold round_div255.
  replace (2 * (x * 255) + 255) with (255 + x * 510) by lia.
  rewrite Z.div_add by lia. reflexivity.
Qed.

(** Through the identity mask a base colour is only clamped. *)
Lemma apply_mask_to_color_start base :
  apply_mask_to_color base start_mask
  = (clamp255 base.1.1, clamp255 base.1.2, clamp255 base.2).
Proof.
  unfold apply_mask_to_color, start_mask; simpl.
  by rewrite !round_div255_full.
Qed.

Lemma elem_of_DYES dye :
  dye ∈ DYES ↔ dye = "red" ∨ dye = "green" ∨ dye = "blue" ∨ dye = "black".
Proof. unfold DYES. rewrite !elem_of_cons, elem_of_nil. tauto. Qed.

Lemma dye_vector_DYES dye add_val sub_val :
  dye ∈ DYES → ∃ dv, dye_vector dye add_val sub_val = Returned dv.
Proof.
  rewrite elem_of_DYES. intros [-> | [-> | [-> | ->]]]; eexists; reflexivity.
Qed.

Lemma apply_dye_to_mask_in_range app mask dye m :
  apply_dye_to_mask app mask dye = Returned m → in_range m.
Proof.
  unfold apply_dye_to_mask.
  destruct (dye_vector _ _ _) as [dv | e]; simpl; [| discriminate].
  intros [= <-]. unfold in_range; simpl.
  repeat split; apply clamp255_range.
Qed.

Lemma apply_dye_to_mask_DYES app mask dye :
  dye ∈ DYES → ∃ m, apply_dye_to_mask app mask dye = Returned m.
Proof.
  intros Hd. unfold apply_dye_to_mask.
  destruct (dye_vector_DYES dye (ADD_VALUE (config app))
              (SUB_VALUE (config app)) Hd) as [dv ->].
  simpl. eauto.
Qed.

Lemma replay_app app mask s1 s2 :
  replay app mask (s1 ++ s2) = let* m := replay app mask s1 in replay app m s2.
Proof.
  revert mask. induction s1 as [| dye s1 IH]; intros mask; simpl; [done |].
  destruct (apply_dye_to_mask app mask dye); simpl; [apply IH | done].
Qed.

Lemma replay_snoc app mask seq dye m m' :
  replay app mask seq = Returned m →
  apply_dye_to_mask app m dye = Returned m' →
  replay app mask (seq ++ [dye]) = Returned m'.
Proof.
  intros H1 H2. rewrite replay_app, H1. simpl. by rewrite H2.
Qed.

Lemma replay_in_range app mask seq m :
  in_range mask → replay app mask seq = Returned m → in_range m.
Proof.
  revert mask. induction seq as [| dye seq IH]; intros mask Hm; simpl.
  - by intros [= <-].
  - destruct (apply_dye_to_mask app mask dye) as [m1 |] eqn:E; simpl;
      [| discriminate].
    apply IH. eapply apply_dye_to_mask_in_range, E.
Qed.

Lemma start_mask_in_range : in_range start_mask.
Proof. unfold in_range, start_mask; simpl. lia. Qed.

(** ** The size of a set of masks *)

Lemma cube_length n : 0 ≤ n → Z.of_nat (length (cube n)) = n * n * n.
Proof.
  intros Hn. unfold cube. rewrite !length_prod, !length_seqZ.
  rewrite !Nat2Z.inj_mul, Z2Nat.id; [reflexivity | exact Hn].
Qed.

Lemma mask_space_length : Z.of_nat (length mask_space) = 256 ^ 3.
Proof. unfold mask_space. rewrite cube_length; [reflexivity | discriminate]. Qed.

Lemma in_mask_space m : in_range m → In m mask_space.
Proof.
  destruct m as [[r g] b]. unfold in_range, mask_space, cube.
  cbn [fst snd]. intros (Hr & Hg & Hb).
  rewrite !in_prod_iff, <- !list_elem_of_In, !elem_of_seqZ. lia.
Qed.

Lemma in_range_set_size (X : gset Triple) :
  (∀ m, m ∈ X → in_range m) → Z.of_nat (size X) ≤ 256 ^ 3.
Proof.
  intros HX. rewrite <- mask_space_length. apply Nat2Z.inj_le.
  change (size X) with (length (elements X)).
  apply NoDup_incl_length.
  - apply NoDup_ListNoDup, NoDup_elements.
  - intros m Hm. apply in_mask_space, HX.
    by apply elem_of_elements, list_elem_of_In.
Qed.

(** ** What one round of dye applications does *)

Lemma expand_spec app mask seq dyes vis queue :
  (∀ dye, dye ∈ dyes → dye ∈ DYES) →
  ∃ new : list Node,
    expand app mask seq dyes vis queue
      = Returned (list_to_set new.*1 ∪ vis, queue ++ new)
    ∧ NoDup new.*1
    ∧ (∀ m, m ∈ new.*1 → m ∉ vis)
    ∧ (∀ n, n ∈ new → ∃ dye, dye ∈ dyes
          ∧ apply_dye_to_mask app mask dye = Returned n.1
          ∧ n.2 = seq ++ [dye]).
Proof.
  revert vis queue.
  induction dyes as [| dye rest IH]; intros vis queue Hd.
  - exists []. simpl. rewrite app_nil_r, union_empty_l_L.
    repeat split; [constructor | set_solver | set_solver].
  - destruct (apply_dye_to_mask_DYES app mask dye) as [nxt Hnxt];
      [apply Hd; left |].
    assert (Hrest : ∀ d, d ∈ rest → d ∈ DYES) by (intros; apply Hd; by right).
    simpl. rewrite Hnxt. simpl.
    destruct (decide (nxt ∈ vis)) as [Hin | Hnin].
    + destruct (IH vis queue Hrest) as (new & -> & Hnd & Hfresh & Hnew).
      exists new. repeat split; try done.
      intros n Hn. destruct (Hnew n Hn) as (d & ? & ? & ?).
      exists d. repeat split; try done. by right.
    + destruct (IH ({[nxt]} ∪ vis) (queue ++ [(nxt, seq ++ [dye])]) Hrest)
        as (new & -> & Hnd & Hfresh & Hnew).
      exists ((nxt, seq ++ [dye]) :: new). repeat split.
      * f_equal. rewrite <- app_assoc. simpl. f_equal. set_solver.
      * simpl. constructor; [| done].
        intros Hc. apply (Hfresh _ Hc). set_solver.
      * intros m Hm Hv. simpl in Hm. apply elem_of_cons in Hm as [-> | Hm];
          [done |]. apply (Hfresh _ Hm). set_solver.
      * intros n Hn. apply elem_of_cons in Hn as [-> | Hn].
        -- exists dye. repeat split; [by left | done].
        -- destruct (Hnew n Hn) as (d & ? & ? & ?).
           exists d. repeat split; try done. by right.
Qed.

Lemma expand_size app mask seq vis queue vis' queue' :
  expand app mask seq DYES vis queue = Returned (vis', queue') →
  (Z.of_nat (size vis') - Z.of_nat (length queue')
   = Z.of_nat (size vis) - Z.of_nat (length queue)).
Proof.
  destruct (expand_spec app mask seq DYES vis queue) as (new & -> & Hnd & Hfresh & _);
    [done |].
  intros [= <- <-].
  rewrite size_union by set_solver.
  rewrite size_list_to_set by done.
  rewrite length_app, length_fmap. lia.
Qed.

(** ** Invariants of the loop *)

Section Search.

Context (app : App) (target_rgb : Triple) (max_depth : Z).

Local Abbreviation step := (step app target_rgb max_depth).
Local Abbreviation reaches := (reaches app target_rgb max_depth).
Local Abbreviation reaches_init := (reaches_init app target_rgb max_depth).
Local Abbreviation reaches_step := (reaches_step app target_rgb max_depth).
Local Abbreviation color_of := (color_of app).
Local Abbreviation diff_of := (diff_of app target_rgb).
Local Abbreviation step_kind := (step_kind app target_rgb max_depth).
Local Abbreviation step_skip := (step_skip app target_rgb max_depth).
Local Abbreviation step_exact := (step_exact app target_rgb max_depth).
Local Abbreviation step_expand := (step_expand app target_rgb max_depth).
Local Abbreviation invariant := (invariant app target_rgb max_depth).
Local Abbreviation inv_range := (inv_range app target_rgb max_depth).

(** The loop body on a non-empty queue, in terms of [diff_of]. *)
Lemma loop_body_cons s n q' :
  q s = n :: q' →
  loop_body app target_rgb max_depth s =
    let s0 := with_queue s (visited s) q' in
    if Z.of_nat (length n.2) >? max_depth then Returned s0
    else if (diff_of n <? best_diff s) && (diff_of n =? 0)
    then Returned (with_break (with_best s0 n.1 n.2 (color_of n) (diff_of n)))
    else
      let* vq := expand app n.1 n.2 DYES (visited s) q' in
      Returned (with_queue
                  (if diff_of n <? best_diff s
                   then with_best s0 n.1 n.2 (color_of n) (diff_of n)
                   else s0)
                  vq.1 vq.2).
Proof.
  intros Hq. unfold loop_body. rewrite Hq. destruct n as [mask seq].
  unfold diff_of, color_of. cbn [fst snd]. cbv zeta.
  destruct (_ >? _); [done |].
  change (best_diff (with_queue s (visited s) q')) with (best_diff s).
  destruct (_ <? _); reflexivity.
Qed.

Lemma step_inv s n s' : step s n s' → broke s = false ∧ step_kind s n s'.
Proof.
  intros (Hfin & Hhd & Hbody).
  unfold finished in Hfin. apply orb_false_iff in Hfin as [Hb _].
  split; [done |].
  destruct (q s) as [| n0 q'] eqn:Hq; [done |].
  simpl in Hhd. injection Hhd as ->.
  rewrite (loop_body_cons s n q' Hq) in Hbody. cbv zeta in Hbody.
  destruct (Z.gtb_spec (Z.of_nat (length n.2)) max_depth) as [Hdeep | Hdepth].
  { injection Hbody as <-. by eapply step_skip. }
  destruct (Z.ltb_spec (diff_of n) (best_diff s)) as [Hlt | Hge];
    destruct (Z.eqb_spec (diff_of n) 0) as [H0 | Hne];
    cbn [andb] in Hbody.
  1: { injection Hbody as <-. eapply step_exact; try done. by rewrite H0. }
  all: destruct (expand_spec app n.1 n.2 DYES (visited s) q')
         as (new & Hex & Hnd & Hfresh & Hnew); [done |];
       rewrite Hex in Hbody; simpl in Hbody; injection Hbody as <-;
       eapply (step_expand _ _ _ q' new); try done; try lia.
  - destruct (Z.ltb_spec (diff_of n) (best_diff s)); [done | lia].
  - destruct (Z.ltb_spec (diff_of n) (best_diff s)); [lia | done].
  - destruct (Z.ltb_spec (diff_of n) (best_diff s)); [lia | done].
Qed.

(** The loop body never raises: every dye it tries is a known one. *)
Lemma loop_body_returns s : ∃ s', loop_body app target_rgb max_depth s = Returned s'.
Proof.
  unfold loop_body.
  destruct (q s) as [| [mask seq] q']; [by eexists |].
  cbn zeta.
  destruct (_ >? _); [by eexists |].
  destruct (_ && _); [by eexists |].
  match goal with |- context [expand ?a ?m ?sq DYES ?v ?qq] =>
    destruct (expand_spec a m sq DYES v qq) as (new & -> & _); [done |]
  end.
  simpl. by eexists.
Qed.

Lemma step_exists s :
  finished s = false → ∃ n s', step s n s'.
Proof.
  intros Hfin. destruct (loop_body_returns s) as [s' Hs'].
  unfold finished in Hfin. apply orb_false_iff in Hfin as [Hb Hq].
  apply bool_decide_eq_false in Hq.
  destruct (q s) as [| n q'] eqn:E; [done |].
  exists n, s'. unfold step, finished. rewrite Hb, E. simpl.
  repeat split; try done.
Qed.

Lemma invariant_init : invariant (initial_state app target_rgb).
Proof.
  split; simpl; try done.
  - intros n Hn. apply list_elem_of_singleton in Hn as ->. done.
  - by left.
  - intros m Hm. apply elem_of_singleton in Hm as ->.
    apply start_mask_in_range.
Qed.

Lemma invariant_step s n s' : step s n s' → invariant s → invariant s'.
Proof.
  intros Hstep [Hrq Hrb Hd Hc Hdf Hr].
  destruct (step_inv _ _ _ Hstep) as [_ Hk].
  assert (Hn : replay app start_mask n.2 = Returned n.1).
  { apply Hrq. destruct Hk as [q' Hq | q' Hq | q' new Hq]; rewrite Hq; by left. }
  destruct Hk as [q' Hq _ -> | q' Hq Hdepth _ H0 -> | q' new Hq Hdepth _ _ _ Hnew ->].
  - split; simpl; try done.
    intros c Hin. apply Hrq. rewrite Hq. by right.
  - split; simpl; try done;
      try (intros c Hin; apply Hrq; rewrite Hq; by right);
      try (by right); by symmetry.
  - assert (Hq' : ∀ c, c ∈ q' ++ new → replay app start_mask c.2 = Returned c.1).
    { intros c Hin. apply elem_of_app in Hin as [Hin | Hin].
      - apply Hrq. rewrite Hq. by right.
      - destruct (Hnew c Hin) as (dye & _ & Hdye & ->).
        eapply replay_snoc; eassumption. }
    assert (Hr' : ∀ m, m ∈ list_to_set new.*1 ∪ visited s → in_range m).
    { intros m Hm. apply elem_of_union in Hm as [Hm | Hm]; [| by apply Hr].
      apply elem_of_list_to_set, list_elem_of_fmap in Hm as (c & -> & Hin).
      destruct (Hnew c Hin) as (dye & _ & Hdye & _).
      eapply apply_dye_to_mask_in_range, Hdye. }
    destruct (diff_of n <? best_diff s); split; simpl; try done.
    by right.
Qed.

Lemma invariant_reaches trace s : reaches trace s → invariant s.
Proof.
  induction 1 as [| trace s n s' _ IH Hstep].
  - apply invariant_init.
  - eapply invariant_step; eassumption.
Qed.

Lemma trace_invariant_init : trace_invariant [] (initial_state app target_rgb).
Proof.
  split; unfold initial_state; cbn [q visited List.app].
  - apply NoDup_singleton.
  - intros n Hn. apply list_elem_of_singleton in Hn as ->. set_solver.
  - by rewrite size_singleton.
  - intros n Hn. apply list_elem_of_singleton in Hn as ->. by left.
Qed.

Lemma trace_invariant_step trace s n s' :
  step s n s' → trace_invariant trace s → trace_invariant (trace ++ [n]) s'.
Proof.
  intros Hstep [Hnd Hvis Hcnt Hst].
  destruct (step_inv _ _ _ Hstep) as [_ Hk].
  destruct Hk as [q' Hq _ -> | q' Hq _ _ _ -> | q' new Hq _ _ Hndn Hfresh Hnew ->];
    rewrite Hq in *.
  1, 2: split; simpl; rewrite <- ?app_assoc; simpl; try done;
        rewrite length_app; simpl in *; lia.
  assert (Heq : (trace ++ [n]) ++ q' ++ new = (trace ++ n :: q') ++ new).
  { by rewrite <- !app_assoc. }
  assert (Hq' : q (with_queue
                     (if diff_of n <? best_diff s
                      then with_best (with_queue s (visited s) q') n.1 n.2
                             (color_of n) (diff_of n)
                      else with_queue s (visited s) q')
                     (list_to_set new.*1 ∪ visited s) (q' ++ new)) = q' ++ new)
    by done.
  assert (Hv' : visited (with_queue
                     (if diff_of n <? best_diff s
                      then with_best (with_queue s (visited s) q') n.1 n.2
                             (color_of n) (diff_of n)
                      else with_queue s (visited s) q')
                     (list_to_set new.*1 ∪ visited s) (q' ++ new))
                = list_to_set new.*1 ∪ visited s)
    by done.
  split; rewrite ?Hq', ?Hv', ?Heq.
  - rewrite fmap_app. apply NoDup_app. repeat split; try done.
    intros m Hm Hm'. apply (Hfresh m Hm').
    apply list_elem_of_fmap in Hm as (c & -> & Hc). by apply Hvis.
  - intros c Hc. apply elem_of_app in Hc as [Hc | Hc].
    + apply elem_of_union_r. by apply Hvis.
    + apply elem_of_union_l, elem_of_list_to_set, list_elem_of_fmap. eauto.
  - rewrite size_union
      by (intros m Hm Hv; apply elem_of_list_to_set in Hm; by apply (Hfresh m)).
    rewrite size_list_to_set by done.
    rewrite !length_app, length_fmap in *. simpl in *. lia.
  - intros c Hc. apply elem_of_app in Hc as [Hc | Hc]; [by apply Hst |].
    destruct (Hnew c Hc) as (dye & _ & _ & ->). right.
    by destruct n.2.
Qed.

Lemma trace_invariant_reaches trace s : reaches trace s → trace_invariant trace s.
Proof.
  induction 1 as [| trace s n s' _ IH Hstep].
  - apply trace_invariant_init.
  - eapply trace_invariant_step; eassumption.
Qed.

(** *** Termination *)

(** Every mask of [visited] was enqueued exactly once, and there are at
    most [256 ^ 3] masks: so many nodes can be dequeued, not more. *)
Lemma reaches_length_bound trace s :
  reaches trace s →
  Z.of_nat (length trace) + Z.of_nat (length (q s)) ≤ 256 ^ 3.
Proof.
  intros Hr.
  pose proof (tinv_count _ _ (trace_invariant_reaches _ _ Hr)) as Hcnt.
  pose proof (in_range_set_size (visited s)
                (inv_range _ (invariant_reaches _ _ Hr))) as Hsz.
  rewrite <- Hcnt, Nat2Z.inj_add in Hsz. exact Hsz.
Qed.

Lemma while_loop_finished n s :
  finished s = true → while_loop app target_rgb max_depth n s = Returned s.
Proof. intros Hf. destruct n; simpl; by rewrite Hf. Qed.

(** [while_loop n] returns, in a state the loop reaches, and has then
    either left the loop or run [2 ^ n] iterations. *)
Lemma while_loop_reaches n trace s :
  reaches trace s →
  ∃ trace' s',
    while_loop app target_rgb max_depth n s = Returned s'
    ∧ reaches (trace ++ trace') s'
    ∧ (finished s' = true ∨ Z.of_nat (length trace') = 2 ^ Z.of_nat n).
Proof.
  revert trace s. induction n as [| n IH]; intros trace s Hr.
  - destruct (finished s) eqn:Hf.
    + exists [], s. rewrite app_nil_r, while_loop_finished by done. auto.
    + destruct (step_exists s Hf) as (c & s' & Hstep).
      exists [c], s'. simpl. rewrite Hf.
      repeat split; [apply Hstep | by eapply reaches_step | by right].
  - destruct (finished s) eqn:Hf.
    + exists [], s. rewrite app_nil_r, while_loop_finished by done. auto.
    + destruct (IH trace s Hr) as (t1 & s1 & H1 & Hr1 & Hd1).
      destruct (IH (trace ++ t1) s1 Hr1) as (t2 & s2 & H2 & Hr2 & Hd2).
      exists (t1 ++ t2), s2. simpl. rewrite Hf, H1. simpl.
      rewrite app_assoc. repeat split; try done.
      destruct Hd1 as [Hf1 | Hl1].
      * left. rewrite while_loop_finished in H2 by done. by injection H2 as <-.
      * destruct Hd2 as [Hf2 | Hl2]; [by left | right].
        rewrite length_app, Nat2Z.inj_add, Hl1, Hl2, Nat2Z.inj_succ.
        rewrite Z.pow_succ_r by lia. lia.
Qed.

(** The loop of [find_sequence_to_target] is over within [2 ^ 24]
    iterations. *)
Lemma while_loop_terminates :
  ∃ trace s,
    while_loop app target_rgb max_depth 24 (initial_state app target_rgb)
      = Returned s
    ∧ reaches trace s
    ∧ finished s = true.
Proof.
  destruct (while_loop_reaches 24 [] _ reaches_init)
    as (trace & s & Hw & Hr & Hd).
  exists trace, s. simpl in Hr. repeat split; try done.
  destruct Hd as [Hf | Hl]; [done |].
  pose proof (reaches_length_bound _ _ Hr) as Hb.
  rewrite Hl in Hb.
  change (2 ^ Z.of_nat 24) with 16777216 in Hb.
  change (256 ^ 3) with 16777216 in Hb.
  unfold finished. apply orb_true_iff. right. apply bool_decide_eq_true.
  destruct (q s); [done | simpl in Hb; lia].
Qed.

(** *** A start node at distance 0 stays the best node *)


End Search.

(** ** What [find_sequence_to_target] returns *)

(** The search returns, and what it returns is read off a state in which
    the loop is over.  This is about the functions above, whose
    [apply_mask_to_color] gives a colour for every base colour; the
    source computes the start colour where [projects] holds, and the
    properties of Parts IV and V that conclude a returned result from
    this lemma state that hypothesis. *)
Lemma find_sequence_to_target_run app target_rgb max_depth :
  ∃ trace s,
    find_sequence_to_target app target_rgb max_depth = Returned (result_of s)
    ∧ reaches app target_rgb (effective_depth app max_depth) trace s
    ∧ finished s = true.
Proof.
  destruct (while_loop_terminates app target_rgb (effective_depth app max_depth))
    as (trace & s & Hw & Hr & Hf).
  exists trace, s. unfold find_sequence_to_target. cbv zeta.
  rewrite Hw. done.
Qed.

Lemma while_loop_one_iteration app target_rgb max_depth n s s' :
  finished s = false →
  loop_body app target_rgb max_depth s = Returned s' →
  finished s' = true →
  while_loop app target_rgb max_depth n s = Returned s'.
Proof.
  intros Hf Hb Hf'. induction n as [| n IH]; simpl; rewrite Hf; [done |].
  rewrite IH. simpl. by apply while_loop_finished.
Qed.

(** With a negative depth the only iteration skips the start node. *)
Lemma find_sequence_to_target_negative_depth app target_rgb max_depth :
  effective_depth app max_depth < 0 →
  find_sequence_to_target app target_rgb max_depth
  = Returned (result_of (initial_state app target_rgb)).
Proof.
  intros Hd. unfold find_sequence_to_target. cbv zeta.
  rewrite (while_loop_one_iteration _ _ _ 24 _
             (with_queue (initial_state app target_rgb)
                (visited (initial_state app target_rgb)) [])); try done.
  rewrite (loop_body_cons _ _ _ _ (start_mask, []) []) by done.
  cbv zeta. cbn [snd length].
  destruct (Z.gtb_spec (Z.of_nat 0) (effective_depth app max_depth)); [done |].
  simpl in *. lia.
Qed.

(** *** Where the start colour exists, every projection of a run does *)

Lemma fits_float_channel (bound b m : Z) :
  Z.abs (b * 255) < bound → 0 ≤ m ≤ 255 → Z.abs (b * m) < bound.
Proof.
  intros Hb Hm. rewrite Z.abs_mul in *.
  rewrite (Z.abs_eq 255) in Hb by lia. rewrite (Z.abs_eq m) by lia.
  apply Z.le_lt_trans with (Z.abs b * 255); [| exact Hb].
  apply Z.mul_le_mono_nonneg_l; [apply Z.abs_nonneg | lia].
Qed.

(** A base colour within [0,255] can be projected. *)
Lemma in_range_projects base :
  in_range base → projects base start_mask = true.
Proof.
  intros (Hr & Hg & Hb). unfold projects, fits_float, start_mask. simpl.
  assert (Hbig : 255 * 255 < 2 ^ 1024 - 2 ^ 970) by reflexivity.
  assert (Hch : ∀ c, 0 ≤ c ≤ 255 → Z.abs (c * 255) < 2 ^ 1024 - 2 ^ 970).
  { intros c Hc. apply Z.le_lt_trans with (255 * 255); [| exact Hbig].
    rewrite Z.abs_eq by lia. apply Z.mul_le_mono_nonneg_r; lia. }
  rewrite !andb_true_iff, !Z.ltb_lt. auto.
Qed.

(** The identity mask has the largest channels, so a base colour that
    can be projected through it can be projected through every mask
    within [0,255]. *)
Lemma projects_in_range base mask :
  projects base start_mask = true → in_range mask → projects base mask = true.
Proof.
  unfold projects, fits_float, start_mask. simpl.
  rewrite !andb_true_iff, !Z.ltb_lt. intros [[Hpr Hpg] Hpb] (Hr & Hg & Hb).
  split; [split |]; by apply fits_float_channel.
Qed.

(** Line 68 computes the start colour; when it returns, so does line 82
    in every iteration, for the mask of every node. *)
Lemma reaches_projects app target_rgb max_depth trace s :
  projects (START_RGB (config app)) start_mask = true →
  reaches app target_rgb max_depth trace s →
  ∀ n, n ∈ trace ++ q s → projects (START_RGB (config app)) n.1 = true.
Proof.
  intros Hp Hr n Hn. apply projects_in_range; [done |].
  apply (inv_range _ _ _ _ (invariant_reaches _ _ _ _ _ Hr)).
  by apply (tinv_visited _ _ (trace_invariant_reaches _ _ _ _ _ Hr)).
Qed.

(** *** The search reads three configuration values and the depth *)

Lemma apply_dye_to_mask_agree app1 app2 mask dye :
  same_search_config app1 app2 →
  apply_dye_to_mask app1 mask dye = apply_dye_to_mask app2 mask dye.
Proof. intros (_ & Ha & Hs). unfold apply_dye_to_mask. by rewrite Ha, Hs. Qed.

Lemma expand_agree app1 app2 mask seq dyes vis queue :
  same_search_config app1 app2 →
  expand app1 mask seq dyes vis queue = expand app2 mask seq dyes vis queue.
Proof.
  intros Hc. revert vis queue.
  induction dyes as [| dye rest IH]; intros vis queue; simpl; [done |].
  rewrite (apply_dye_to_mask_agree app1 app2) by done.
  destruct (apply_dye_to_mask app2 mask dye) as [nxt |]; simpl; [| done].
  destruct (decide (nxt ∈ vis)); apply IH.
Qed.

Lemma loop_body_agree app1 app2 target_rgb max_depth s :
  same_search_config app1 app2 →
  loop_body app1 target_rgb max_depth s = loop_body app2 target_rgb max_depth s.
Proof.
  intros Hc. unfold loop_body.
  destruct (q s) as [| [mask seq] q']; [done |].
  cbv zeta. destruct Hc as (Hst & Ha & Hs). rewrite Hst.
  destruct (_ >? _); [done |].
  destruct (_ && _); [done |].
  by rewrite (expand_agree app1 app2) by done.
Qed.

Lemma while_loop_agree app1 app2 target_rgb max_depth n s :
  same_search_config app1 app2 →
  while_loop app1 target_rgb max_depth n s
  = while_loop app2 target_rgb max_depth n s.
Proof.
  intros Hc. revert s. induction n as [| n IH]; intros s; simpl.
  - destruct (finished s); [done |]. by apply loop_body_agree.
  - destruct (finished s); [done |]. rewrite IH.
    destruct (while_loop app2 target_rgb max_depth n s); simpl; [apply IH | done].
Qed.

Lemma initial_state_agree app1 app2 target_rgb :
  same_search_config app1 app2 →
  initial_state app1 target_rgb = initial_state app2 target_rgb.
Proof. intros (Hst & _). unfold initial_state. by rewrite Hst. Qed.

(** *** The first dequeued node *)

Lemma reaches_trace_head app target_rgb max_depth trace s :
  reaches app target_rgb max_depth trace s →
  trace = [] ∨ ∃ rest, trace = (start_mask, []) :: rest.
Proof.
  induction 1 as [| trace s n s' Hr IH Hstep]; [by left | right].
  destruct IH as [-> | [rest ->]]; [| by eexists].
  inversion Hr as [Ht Hs | t s0 n0 s1 _ _ Ht Hs];
    [| by destruct t].
  subst s. destruct Hstep as (_ & Hhd & _). simpl in Hhd.
  injection Hhd as <-. by exists [].
Qed.

(** *** Leaving the loop on an exact match *)

(** A node at distance 0 that improves on the best distance ends the
    loop and is the result. *)
Lemma improving_exact_node_stops app target_rgb max_depth s n s' :
  step app target_rgb max_depth s n s' →
  Z.of_nat (length n.2) ≤ max_depth →
  diff_of app target_rgb n = 0 →
  0 < best_diff s →
  broke s' = true ∧ result_of s' = (n.2, n.1, color_of app n, 0).
Proof.
  intros Hstep Hlen H0 Hpos.
  destruct (step_inv _ _ _ _ _ _ Hstep) as [_ Hk].
  destruct Hk as [q' _ Hdeep _ | q' _ _ _ _ -> | q' new _ _ Hno _ _ _ _].
  - lia.
  - done.
  - destruct Hno. lia.
Qed.

(** ** Two runs of the loop *)

(** Two concrete runs with the import-time configuration and depth 1:
    towards pure red, where the red dye improves without matching, and
    towards the colour one red dye gives, where it matches. *)
Lemma run_towards_red :
  ∃ s, reaches initial_app (255, 0, 0) 1
         [(start_mask, []); ((255, 239, 239), ["red"])] s
       ∧ result_of s = (["red"], (255, 239, 239), (241, 205, 27), 246)
       ∧ broke s = false.
Proof.
  pose (s0 := initial_state initial_app (255, 0, 0)).
  pose (s1 := match loop_body initial_app (255, 0, 0) 1 s0 with
              | Returned s => s | Raised _ => s0 end).
  pose (s2 := match loop_body initial_app (255, 0, 0) 1 s1 with
              | Returned s => s | Raised _ => s0 end).
  exists s2. split; [| split; vm_compute; reflexivity].
  apply (reaches_step _ _ _ [(start_mask, [])] s1 _ s2).
  - apply (reaches_step _ _ _ [] s0 _ s1); [apply reaches_init |].
    repeat split; vm_compute; reflexivity.
  - repeat split; vm_compute; reflexivity.
Qed.

Lemma run_matching_red :
  ∃ s, reaches initial_app (241, 205, 27) 1
         [(start_mask, []); ((255, 239, 239), ["red"])] s
       ∧ broke s = true.
Proof.
  pose (s0 := initial_state initial_app (241, 205, 27)).
  pose (s1 := match loop_body initial_app (241, 205, 27) 1 s0 with
              | Returned s => s | Raised _ => s0 end).
  pose (s2 := match loop_body initial_app (241, 205, 27) 1 s1 with
              | Returned s => s | Raised _ => s0 end).
  exists s2. split; [| vm_compute; reflexivity].
  apply (reaches_step _ _ _ [(start_mask, [])] s1 _ s2).
  - apply (reaches_step _ _ _ [] s0 _ s1); [apply reaches_init |].
    repeat split; vm_compute; reflexivity.
  - repeat split; vm_compute; reflexivity.
Qed.

(** The import-time start colour can be projected. *)
Lemma initial_app_projects :
  projects (START_RGB (config initial_app)) start_mask = true.
Proof. apply in_range_projects. unfold in_range; simpl; lia. Qed.

(** * Part IV: the properties of the specification *)

Example search_one_step :
  find_sequence_to_target initial_app (255, 0, 0) (Some 1)
  = Returned (["red"], (255, 239, 239), (241, 205, 27), 246).
Proof. vm_compute. reflexivity. Qed.

Example search_depth_zero :
  find_sequence_to_target initial_app (255, 0, 0) (Some 0)
  = Returned ([], (255, 255, 255), (241, 219, 29), 262).
Proof. vm_compute. reflexivity. Qed.

(** C1 (the code misses a case).  The loop leaves through [break] only
    when a node strictly improves on the best distance and reaches 0.
    The best distance starts as the start node's own, so a start node at
    distance 0 is no improvement: with the import-time configuration and
    the base colour as target, the start node is dequeued at distance 0,
    the loop goes on, and the next iteration dequeues and expands the
    node reached by one red dye. *)
Theorem exact_start_node_does_not_stop :
  diff_of initial_app (241, 219, 29) (start_mask, []) = 0
  ∧ ∃ s, reaches initial_app (241, 219, 29) 48
           [(start_mask, []); ((255, 239, 239), ["red"])] s
         ∧ finished s = false
         ∧ length (q s) = 7%nat.
Proof.
  split; [reflexivity |].
  pose (s0 := initial_state initial_app (241, 219, 29)).
  pose (s1 := match loop_body initial_app (241, 219, 29) 48 s0 with
              | Returned s => s | Raised _ => s0 end).
  pose (s2 := match loop_body initial_app (241, 219, 29) 48 s1 with
              | Returned s => s | Raised _ => s0 end).
  exists s2. split; [| split; vm_compute; reflexivity].
  apply (reaches_step _ _ _ [(start_mask, [])] s1 _ s2).
  - apply (reaches_step _ _ _ [] s0 _ s1); [apply reaches_init |].
    repeat split; vm_compute; reflexivity.
  - repeat split; vm_compute; reflexivity.
Qed.

(** C2, as stated, fails: the search reads [app.config], so the same
    arguments give different results under different configurations,
    and the before-request hook lets the session change the
    configuration. *)
Lemma config_changes_result :
  find_sequence_to_target initial_app (0, 0, 0) (Some 0)
  ≠ find_sequence_to_target (with_START_RGB initial_app (0, 0, 0))
      (0, 0, 0) (Some 0)
  ∧ (let stored : App :=
       {| config := initial_config;
          session := {[ "start_rgb" := VList [SInt 0; SInt 0; SInt 0] ]} |} in
     config stored = config initial_app
     ∧ find_sequence_to_target
         (_sync_start_rgb_from_session int_of_decimal stored)
         (0, 0, 0) (Some 0)
       ≠ find_sequence_to_target
           (_sync_start_rgb_from_session int_of_decimal initial_app)
           (0, 0, 0) (Some 0)).
Proof.
  split; [| split; [reflexivity |]]; vm_compute; discriminate.
Qed.

(** C2 (amended).  The result of the search is a function of its two
    arguments and of the configuration values it reads when called:
    [START_RGB], [ADD_VALUE], [SUB_VALUE], and [MAX_DEPTH] when no depth
    is passed.  Two calls with the same arguments under configurations
    that agree on these return the same result, whatever else differs
    (the session, [MAX_DEPTH] when a depth is passed). *)
Theorem search_depends_on_arguments_and_config app1 app2 target_rgb max_depth :
  same_search_config app1 app2 →
  effective_depth app1 max_depth = effective_depth app2 max_depth →
  find_sequence_to_target app1 target_rgb max_depth
  = find_sequence_to_target app2 target_rgb max_depth.
Proof.
  intros Hc Hd. unfold find_sequence_to_target. cbv zeta.
  rewrite Hd, (initial_state_agree app1 app2) by done.
  by rewrite (while_loop_agree app1 app2) by done.
Qed.

Lemma search_depends_on_arguments_and_config_witness :
  let other : App :=
    {| config := {| START_RGB := (241, 219, 29); ADD_VALUE := 32;
                    SUB_VALUE := 16; MAX_DEPTH := 7 |};
       session := {[ "history" := VScalar (SStr "x") ]} |} in
  same_search_config initial_app other
  ∧ effective_depth initial_app (Some 3) = effective_depth other (Some 3)
  ∧ find_sequence_to_target initial_app (255, 0, 0) (Some 3)
    = find_sequence_to_target other (255, 0, 0) (Some 3).
Proof.
  intros other.
  assert (Hc : same_search_config initial_app other) by (repeat split).
  assert (Hd : effective_depth initial_app (Some 3) = effective_depth other (Some 3))
    by reflexivity.
  exact (conj Hc (conj Hd
    (search_depends_on_arguments_and_config initial_app other (255, 0, 0)
       (Some 3) Hc Hd))).
Defined.

Lemma home_returns py_int app form :
  ∃ res,
    home py_int app form = Returned (home_target py_int form, res)
    ∧ find_sequence_to_target app (home_target py_int form) None = Returned res.
Proof.
  destruct (find_sequence_to_target_run app (home_target py_int form) None)
    as (trace & s & Hf & _).
  exists (result_of s). unfold home. cbv zeta. by rewrite Hf.
Qed.

(** C3, as stated, fails: a field that is no number makes the target
    (0, 0, 0), a channel outside [0,255] is searched for as it is, and a
    negative depth returns the start node; nothing is rejected. *)
Lemma bad_input_is_accepted :
  (∃ res, home int_of_decimal initial_app
            {[ "r" := "abc"; "g" := "10"; "b" := "10" ]}
          = Returned ((0, 0, 0), res))
  ∧ (∃ res, home int_of_decimal initial_app
              {[ "r" := "300"; "g" := "-5"; "b" := "10" ]}
            = Returned ((300, -5, 10), res))
  ∧ find_sequence_to_target initial_app (0, 0, 0) (Some (-1))
    = Returned ([], (255, 255, 255), (241, 219, 29), 489).
Proof.
  split; [| split].
  - destruct (home_returns int_of_decimal initial_app
                {[ "r" := "abc"; "g" := "10"; "b" := "10" ]}) as (res & H & _).
    exists res. rewrite H. reflexivity.
  - destruct (home_returns int_of_decimal initial_app
                {[ "r" := "300"; "g" := "-5"; "b" := "10" ]}) as (res & H & _).
    exists res. rewrite H. reflexivity.
  - vm_compute. reflexivity.
Qed.

(** C3 (amended).  No target and no depth makes the home route or the
    search fail.  Where the start colour exists (the configured base
    colour can be projected through the identity mask, as every colour
    within [0,255] can), the route always reaches the search and returns
    its result; the target is the three converted fields when all three
    convert, also when a value lies outside [0,255], and (0, 0, 0) when
    a field is missing or does not convert.  With a negative depth,
    configured or passed, the search returns the start node: the empty
    sequence, the identity mask, its colour and its distance. *)
Theorem home_never_rejects py_int app form :
  projects (START_RGB (config app)) start_mask = true →
  (∃ res,
     home py_int app form = Returned (home_target py_int form, res)
     ∧ match int_field py_int form "r", int_field py_int form "g",
             int_field py_int form "b" with
       | Returned r, Returned g, Returned b =>
           home_target py_int form = (r, g, b)
       | _, _, _ => home_target py_int form = (0, 0, 0)
       end
     ∧ (MAX_DEPTH (config app) < 0 →
        res = ([], start_mask,
               apply_mask_to_color (START_RGB (config app)) start_mask,
               manhattan
                 (apply_mask_to_color (START_RGB (config app)) start_mask)
                 (home_target py_int form))))
  ∧ (∀ target_rgb d, d < 0 →
       find_sequence_to_target app target_rgb (Some d)
       = Returned ([], start_mask,
                   apply_mask_to_color (START_RGB (config app)) start_mask,
                   manhattan
                     (apply_mask_to_color (START_RGB (config app)) start_mask)
                     target_rgb)).
Proof.
  intros _. split.
  - destruct (home_returns py_int app form) as (res & Hh & Hf).
    exists res. split; [done |]. split.
    + unfold home_target.
      destruct (int_field py_int form "r"); [| done].
      destruct (int_field py_int form "g"); [| done].
      destruct (int_field py_int form "b"); done.
    + intros Hd.
      rewrite find_sequence_to_target_negative_depth in Hf by done.
      by injection Hf as <-.
  - intros target_rgb d Hd.
    by rewrite find_sequence_to_target_negative_depth.
Qed.

Lemma home_never_rejects_witness :
  let app : App :=
    {| config := {| START_RGB := (241, 219, 29); ADD_VALUE := 32;
                    SUB_VALUE := 16; MAX_DEPTH := -1 |};
       session := ∅ |} in
  projects (START_RGB (config app)) start_mask = true
  ∧ -1 < 0
  ∧ find_sequence_to_target app (300, 0, 0) (Some (-1))
    = Returned ([], start_mask, (241, 219, 29), 307).
Proof.
  intros app.
  assert (Hp : projects (START_RGB (config app)) start_mask = true)
    by (apply in_range_projects; unfold in_range; simpl; lia).
  split; [exact Hp |]. split; [lia |].
  exact (proj2 (home_never_rejects int_of_decimal app ∅ Hp) (300, 0, 0) (-1)
           ltac:(lia)).
Defined.



Lemma filter_none {A : Type} (P : A → Prop) `{∀ x, Decision (P x)} (l : list A) :
  (∀ x, x ∈ l → ¬ P x) → filter P l = [].
Proof.
  induction l as [| x l IH]; intros Hl; [done |].
  rewrite filter_cons_False by (apply Hl; left).
  apply IH. intros y Hy. apply Hl. by right.
Qed.

(** With depth 0 the start node is the only dequeued node that is not
    skipped. *)
Lemma evaluated_depth_zero app target_rgb trace s :
  reaches app target_rgb 0 trace s → trace ≠ [] →
  evaluated 0 trace = [(start_mask, [])].
Proof.
  intros Hr Hne.
  destruct (reaches_trace_head _ _ _ _ _ Hr) as [-> | [rest ->]]; [done |].
  destruct (trace_invariant_reaches _ _ _ _ _ Hr) as [Hnd _ _ Hst].
  unfold evaluated. rewrite filter_cons_True by (simpl; lia).
  f_equal. apply filter_none. intros n Hn Hlen.
  simpl in Hnd. apply NoDup_cons in Hnd as [Hnotin _].
  destruct (Hst n) as [-> | Hseq].
  - apply elem_of_app. left. by right.
  - apply Hnotin. apply list_elem_of_fmap. exists (start_mask, []).
    split; [done |]. apply elem_of_app. by left.
  - destruct n.2; [done | simpl in Hlen; lia].
Qed.

(** C5.  Where the start colour exists and the depth is at least 0, the
    search returns a sequence no longer than the depth; with depth 0 it
    is empty, and the start node is the only node compared with the best
    one. *)
Theorem depth_bound_respected app target_rgb max_depth :
  projects (START_RGB (config app)) start_mask = true →
  0 ≤ effective_depth app max_depth →
  ∃ seq mask color diff,
    find_sequence_to_target app target_rgb max_depth
    = Returned (seq, mask, color, diff)
    ∧ Z.of_nat (length seq) ≤ effective_depth app max_depth
    ∧ (effective_depth app max_depth = 0 →
       seq = []
       ∧ ∀ trace s, reaches app target_rgb 0 trace s → trace ≠ [] →
           evaluated 0 trace = [(start_mask, [])]).
Proof.
  intros _ Hd.
  destruct (find_sequence_to_target_run app target_rgb max_depth)
    as (trace & s & -> & Hr & _).
  exists (best_seq s), (best_mask s), (best_color s), (best_diff s).
  split; [done |].
  pose proof (inv_depth _ _ _ _ (invariant_reaches _ _ _ _ _ Hr)) as Hlen.
  assert (Hle : Z.of_nat (length (best_seq s)) ≤ effective_depth app max_depth).
  { destruct Hlen as [-> | Hlen]; [exact Hd | exact Hlen]. }
  split; [exact Hle |].
  intros H0. split.
  - rewrite H0 in Hle. destruct (best_seq s); [done | simpl in Hle; lia].
  - intros trace' s'. apply evaluated_depth_zero.
Qed.

Lemma depth_bound_respected_witness :
  projects (START_RGB (config initial_app)) start_mask = true
  ∧ 0 ≤ effective_depth initial_app (Some 1)
  ∧ ∃ seq mask color diff,
      find_sequence_to_target initial_app (255, 0, 0) (Some 1)
      = Returned (seq, mask, color, diff)
      ∧ Z.of_nat (length seq) ≤ 1.
Proof.
  pose proof initial_app_projects as Hp.
  assert (Hd : 0 ≤ effective_depth initial_app (Some 1)) by (simpl; lia).
  split; [exact Hp |]. split; [exact Hd |].
  destruct (depth_bound_respected initial_app (255, 0, 0) (Some 1) Hp Hd)
    as (seq & mask & color & diff & Hf & Hlen & _).
  exists seq, mask, color, diff. split; [exact Hf | exact Hlen].
Defined.

(** C6.  Where the start colour exists, the search returns, and applying
    the dyes of the returned sequence in order, from the identity mask,
    under the same configuration, gives the returned mask. *)
Theorem replay_gives_best_mask app target_rgb max_depth :
  projects (START_RGB (config app)) start_mask = true →
  ∃ seq mask color diff,
    find_sequence_to_target app target_rgb max_depth
    = Returned (seq, mask, color, diff)
    ∧ replay app start_mask seq = Returned mask.
Proof.
  intros _.
  destruct (find_sequence_to_target_run app target_rgb max_depth)
    as (trace & s & -> & Hr & _).
  exists (best_seq s), (best_mask s), (best_color s), (best_diff s).
  split; [done |].
  apply (inv_replay_best _ _ _ _ (invariant_reaches _ _ _ _ _ Hr)).
Qed.

Lemma replay_gives_best_mask_witness :
  projects (START_RGB (config initial_app)) start_mask = true
  ∧ find_sequence_to_target initial_app (255, 0, 0) (Some 1)
    = Returned (["red"], (255, 239, 239), (241, 205, 27), 246)
  ∧ replay initial_app start_mask ["red"] = Returned (255, 239, 239).
Proof.
  pose proof initial_app_projects as Hp.
  pose proof search_one_step as Hf.
  split; [exact Hp |]. split; [exact Hf |].
  destruct (replay_gives_best_mask initial_app (255, 0, 0) (Some 1) Hp)
    as (seq & mask & color & diff & Hf' & Hrep).
  rewrite Hf in Hf'. injection Hf' as <- <- _ _. exact Hrep.
Defined.

(** C7.  For every configuration, whatever the sign and size of the add
    and subtract values: a dye application clamps each channel sum at
    once, so its result, every mask reached from the identity mask, every
    projected colour, and every mask and colour the search holds (in
    dequeued and queued nodes and as its best node) have their three
    channels in [0,255]. *)
Theorem channels_stay_in_range app :
  (∀ mask dye m,
     apply_dye_to_mask app mask dye = Returned m →
     in_range m
     ∧ ∃ dv, dye_vector dye (ADD_VALUE (config app)) (SUB_VALUE (config app))
             = Returned dv
           ∧ m = (clamp255 (mask.1.1 + dv.1.1), clamp255 (mask.1.2 + dv.1.2),
                  clamp255 (mask.2 + dv.2)))
  ∧ (∀ seq m, replay app start_mask seq = Returned m → in_range m)
  ∧ (∀ base mask,
       in_range (apply_mask_to_color base mask)
       ∧ apply_mask_to_color base mask
         = (clamp255 (round_div255 (base.1.1 * mask.1.1)),
            clamp255 (round_div255 (base.1.2 * mask.1.2)),
            clamp255 (round_div255 (base.2 * mask.2))))
  ∧ (∀ target_rgb max_depth trace s,
       reaches app target_rgb max_depth trace s →
       (∀ n, n ∈ trace ++ q s → in_range n.1 ∧ in_range (color_of app n))
       ∧ in_range (best_mask s) ∧ in_range (best_color s)).
Proof.
  split; [| split; [| split]].
  - intros mask dye m Hm. split.
    + eapply apply_dye_to_mask_in_range, Hm.
    + unfold apply_dye_to_mask in Hm.
      destruct (dye_vector _ _ _) as [dv |]; simpl in Hm; [| done].
      exists dv. split; [done |]. by injection Hm as <-.
  - intros seq m. apply replay_in_range, start_mask_in_range.
  - intros base mask. split; [apply apply_mask_to_color_in_range | done].
  - intros target_rgb max_depth trace s Hr.
    pose proof (invariant_reaches _ _ _ _ _ Hr) as Hinv.
    pose proof (trace_invariant_reaches _ _ _ _ _ Hr) as Htinv.
    split; [| split].
    + intros n Hn. split; [| apply apply_mask_to_color_in_range].
      apply (inv_range _ _ _ _ Hinv). by apply (tinv_visited _ _ Htinv).
    + eapply replay_in_range; [apply start_mask_in_range |].
      apply (inv_replay_best _ _ _ _ Hinv).
    + rewrite (inv_color _ _ _ _ Hinv). apply apply_mask_to_color_in_range.
Qed.

Lemma channels_stay_in_range_witness :
  let wild : App :=
    {| config := {| START_RGB := (241, 219, 29); ADD_VALUE := 1000;
                    SUB_VALUE := -7; MAX_DEPTH := 48 |};
       session := ∅ |} in
  replay wild start_mask ["red"; "black"] = Returned (223, 223, 223)
  ∧ in_range (223, 223, 223).
Proof.
  intros wild.
  assert (Hr : replay wild start_mask ["red"; "black"] = Returned (223, 223, 223))
    by reflexivity.
  split; [exact Hr |].
  exact (proj1 (proj2 (channels_stay_in_range wild)) _ _ Hr).
Defined.

(** C8.  The delta of red is (+add, -sub, -sub), of green
    (-sub, +add, -sub), of blue (-sub, -sub, +add); the delta of black is
    (-32, -32, -32) for every add and sub. *)
Theorem dye_vector_values add_val sub_val :
  dye_vector "red" add_val sub_val = Returned (add_val, - sub_val, - sub_val)
  ∧ dye_vector "green" add_val sub_val = Returned (- sub_val, add_val, - sub_val)
  ∧ dye_vector "blue" add_val sub_val = Returned (- sub_val, - sub_val, add_val)
  ∧ dye_vector "black" add_val sub_val = Returned (-32, -32, -32).
Proof. repeat split. Qed.

(** C9.  For every configuration whose start colour exists, every target
    and every depth (however large) the search returns: its loop is over
    within [256 ^ 3] iterations.  In every state the loop reaches, the
    nodes enqueued so far (the dequeued ones and those still in the
    queue) have pairwise different masks, and at most [256 ^ 3] nodes
    have been dequeued. *)
Theorem search_terminates app target_rgb max_depth :
  (projects (START_RGB (config app)) start_mask = true →
   (∃ res, find_sequence_to_target app target_rgb max_depth = Returned res)
   ∧ (∃ trace s,
        while_loop app target_rgb (effective_depth app max_depth) 24
          (initial_state app target_rgb) = Returned s
        ∧ reaches app target_rgb (effective_depth app max_depth) trace s
        ∧ finished s = true))
  ∧ (∀ trace s,
       reaches app target_rgb (effective_depth app max_depth) trace s →
       NoDup (trace ++ q s).*1
       ∧ Z.of_nat (length trace) ≤ 256 ^ 3).
Proof.
  split; [intros _; split |].
  - destruct (find_sequence_to_target_run app target_rgb max_depth)
      as (trace & s & Hf & _). eauto.
  - apply while_loop_terminates.
  - intros trace s Hr. split.
    + apply (tinv_nodup _ _ (trace_invariant_reaches _ _ _ _ _ Hr)).
    + pose proof (reaches_length_bound _ _ _ _ _ Hr). lia.
Qed.

Lemma search_terminates_witness :
  projects (START_RGB (config initial_app)) start_mask = true
  ∧ (∃ res, find_sequence_to_target initial_app (255, 0, 0) (Some 1)
            = Returned res)
  ∧ ∃ s, reaches initial_app (255, 0, 0) 1
           [(start_mask, []); ((255, 239, 239), ["red"])] s
         ∧ NoDup ([(start_mask, []); ((255, 239, 239), ["red"])] ++ q s).*1
         ∧ Z.of_nat (length [(start_mask, [] : list string);
                             ((255, 239, 239), ["red"])]) ≤ 256 ^ 3.
Proof.
  pose proof initial_app_projects as Hp.
  destruct (search_terminates initial_app (255, 0, 0) (Some 1))
    as [Hret Hinv].
  split; [exact Hp |]. split; [exact (proj1 (Hret Hp)) |].
  destruct run_towards_red as (s & Hr & _).
  exists s. split; [exact Hr |]. exact (Hinv _ _ Hr).
Defined.

(** C10.  Where the start colour exists, the search returns, and the
    four components of the result describe one node: the colour is the
    base colour seen through the returned mask, and the distance is that
    colour's distance to the target. *)
Theorem result_is_consistent app target_rgb max_depth :
  projects (START_RGB (config app)) start_mask = true →
  ∃ seq mask color diff,
    find_sequence_to_target app target_rgb max_depth
    = Returned (seq, mask, color, diff)
    ∧ color = apply_mask_to_color (START_RGB (config app)) mask
    ∧ diff = manhattan color target_rgb.
Proof.
  intros _.
  destruct (find_sequence_to_target_run app target_rgb max_depth)
    as (trace & s & -> & Hr & _).
  exists (best_seq s), (best_mask s), (best_color s), (best_diff s).
  pose proof (invariant_reaches _ _ _ _ _ Hr) as [_ _ _ Hc Hd _].
  done.
Qed.

Lemma result_is_consistent_witness :
  projects (START_RGB (config initial_app)) start_mask = true
  ∧ find_sequence_to_target initial_app (255, 0, 0) (Some 1)
    = Returned (["red"], (255, 239, 239), (241, 205, 27), 246)
  ∧ (241, 205, 27)
    = apply_mask_to_color (START_RGB (config initial_app)) (255, 239, 239)
  ∧ 246 = manhattan (241, 205, 27) (255, 0, 0).
Proof.
  pose proof initial_app_projects as Hp.
  pose proof search_one_step as Hf.
  split; [exact Hp |]. split; [exact Hf |].
  destruct (result_is_consistent initial_app (255, 0, 0) (Some 1) Hp)
    as (seq & mask & color & diff & Hf' & Hc & Hd).
  rewrite Hf in Hf'. injection Hf' as <- <- <- <-.
  split; [exact Hc | exact Hd].
Defined.

(** * Part V: further properties of the code *)

(** ** The search *)

Lemma evaluated_snoc max_depth trace n :
  evaluated max_depth (trace ++ [n])
  = evaluated max_depth trace
    ++ (if decide (Z.of_nat (length n.2) ≤ max_depth) then [n] else []).
Proof.
  unfold evaluated. rewrite filter_app. reflexivity.
Qed.

Lemma step_best_diff app target_rgb max_depth s n s' :
  step app target_rgb max_depth s n s' →
  best_diff s' ≤ best_diff s
  ∧ (Z.of_nat (length n.2) ≤ max_depth →
     best_diff s' ≤ diff_of app target_rgb n).
Proof.
  intros Hstep. destruct (step_inv _ _ _ _ _ _ Hstep) as [_ Hk].
  destruct Hk as [q' _ Hdeep -> | q' _ _ Hlt H0 -> | q' new _ _ _ _ _ _ ->].
  - simpl. split; lia.
  - simpl. split; lia.
  - destruct (Z.ltb_spec (diff_of app target_rgb n) (best_diff s));
      simpl; split; lia.
Qed.

Lemma reaches_best_diff app target_rgb max_depth trace s :
  reaches app target_rgb max_depth trace s →
  best_diff s ≤ best_diff (initial_state app target_rgb)
  ∧ ∀ n, n ∈ evaluated max_depth trace →
      best_diff s ≤ diff_of app target_rgb n.
Proof.
  induction 1 as [| trace s n s' _ [IHi IHe] Hstep].
  - split; [done |]. intros n Hn. unfold evaluated in Hn.
    by apply elem_of_nil in Hn.
  - pose proof (step_best_diff _ _ _ _ _ _ Hstep) as [Hle Hn].
    split; [lia |]. intros m Hm. rewrite evaluated_snoc in Hm.
    apply elem_of_app in Hm as [Hm | Hm].
    + specialize (IHe m Hm). lia.
    + destruct (decide _) as [Hd |] in Hm; [| by apply elem_of_nil in Hm].
      apply list_elem_of_singleton in Hm as ->. by apply Hn.
Qed.

(** X1.  While the search runs the best distance never grows: in every
    state it is at most the start node's distance and at most the
    distance of every node compared so far, and an iteration never
    raises it. *)
Theorem best_distance_is_least app target_rgb max_depth trace s :
  reaches app target_rgb max_depth trace s →
  best_diff s ≤ best_diff (initial_state app target_rgb)
  ∧ (∀ n, n ∈ evaluated max_depth trace →
       best_diff s ≤ diff_of app target_rgb n)
  ∧ (∀ n s', step app target_rgb max_depth s n s' →
       best_diff s' ≤ best_diff s).
Proof.
  intros Hr. destruct (reaches_best_diff _ _ _ _ _ Hr) as [Hi He].
  split; [exact Hi |]. split; [exact He |].
  intros n s' Hstep. apply (step_best_diff _ _ _ _ _ _ Hstep).
Qed.

(** The best node is the start node or the first compared node that
    is strictly closer than the start node and than every node compared
    before it. *)
Lemma reaches_first_least app target_rgb max_depth trace s :
  reaches app target_rgb max_depth trace s →
  result_of s = result_of (initial_state app target_rgb)
  ∨ ∃ before n after,
      trace = before ++ n :: after
      ∧ result_of s = (n.2, n.1, color_of app n, diff_of app target_rgb n)
      ∧ Z.of_nat (length n.2) ≤ max_depth
      ∧ diff_of app target_rgb n < best_diff (initial_state app target_rgb)
      ∧ ∀ m, m ∈ evaluated max_depth before →
          diff_of app target_rgb n < diff_of app target_rgb m.
Proof.
  induction 1 as [| trace s n s' Hr IH Hstep]; [by left |].
  pose proof (reaches_best_diff _ _ _ _ _ Hr) as (Hinit & Hev).
  assert (Hnew : Z.of_nat (length n.2) ≤ max_depth →
                 diff_of app target_rgb n < best_diff s →
                 ∃ before n0 after,
                   trace ++ [n] = before ++ n0 :: after
                   ∧ (n.2, n.1, color_of app n, diff_of app target_rgb n)
                     = (n0.2, n0.1, color_of app n0, diff_of app target_rgb n0)
                   ∧ Z.of_nat (length n0.2) ≤ max_depth
                   ∧ diff_of app target_rgb n0
                     < best_diff (initial_state app target_rgb)
                   ∧ ∀ m, m ∈ evaluated max_depth before →
                       diff_of app target_rgb n0 < diff_of app target_rgb m).
  { intros Hd Hlt. exists trace, n, []. repeat split; try done; [lia |].
    intros m Hm. specialize (Hev m Hm). lia. }
  assert (Hold : result_of s' = result_of s →
            result_of s' = result_of (initial_state app target_rgb)
            ∨ ∃ before n0 after,
                trace ++ [n] = before ++ n0 :: after
                ∧ result_of s'
                  = (n0.2, n0.1, color_of app n0, diff_of app target_rgb n0)
                ∧ Z.of_nat (length n0.2) ≤ max_depth
                ∧ diff_of app target_rgb n0
                  < best_diff (initial_state app target_rgb)
                ∧ ∀ m, m ∈ evaluated max_depth before →
                    diff_of app target_rgb n0 < diff_of app target_rgb m).
  { intros ->. destruct IH as [IH | (before & n0 & after & -> & IH)]; [by left |].
    right. exists before, n0, (after ++ [n]).
    by rewrite <- app_assoc. }
  destruct (step_inv _ _ _ _ _ _ Hstep) as [_ Hk].
  destruct Hk as [q' _ _ -> | q' _ Hd Hlt H0 -> | q' new _ Hd _ _ _ _ ->].
  - by apply Hold.
  - right. unfold result_of at 1. simpl. rewrite <- H0. by apply Hnew.
  - destruct (Z.ltb_spec (diff_of app target_rgb n) (best_diff s)) as [Hlt | Hge].
    + right. unfold result_of at 1. simpl. by apply Hnew.
    + by apply Hold.
Qed.

Lemma same_length_sorted (k : nat) (l : list Node) :
  (∀ x, x ∈ l → length x.2 = k) → StronglySorted no_longer l.
Proof.
  induction l as [| x l IH]; intros Hl; [constructor |].
  apply StronglySorted_cons. split.
  - apply Forall_forall. intros y Hy. unfold no_longer.
    rewrite (Hl x), (Hl y); [lia | by right | by left].
  - apply IH. intros y Hy. apply Hl. by right.
Qed.

(** The dequeued nodes followed by the queued ones are in order of
    sequence length. *)
Lemma reaches_sorted app target_rgb max_depth trace s :
  reaches app target_rgb max_depth trace s →
  StronglySorted no_longer (trace ++ q s)
  ∧ ∀ a b, head (q s) = Some a → b ∈ q s →
      (length b.2 ≤ S (length a.2))%nat.
Proof.
  induction 1 as [| trace s n s' _ [IHs IHb] Hstep].
  - split.
    + simpl. apply StronglySorted_cons. split; constructor.
    + simpl. intros a b [= <-] Hb.
      apply list_elem_of_singleton in Hb as ->. lia.
  - destruct (step_inv _ _ _ _ _ _ Hstep) as [_ Hk].
    assert (Hpop : ∀ q', q s = n :: q' →
              StronglySorted no_longer ((trace ++ [n]) ++ q')
              ∧ (∀ b, b ∈ q' → (length b.2 ≤ S (length n.2))%nat)
              ∧ (∀ a, a ∈ q' → (length n.2 ≤ length a.2)%nat)
              ∧ (∀ a, a ∈ trace → (length a.2 ≤ length n.2)%nat)).
    { intros q' Hq. rewrite Hq in *. rewrite <- app_assoc. simpl.
      split; [done |]. split; [| split].
      - intros b Hb. apply (IHb n b); [done | by right].
      - intros a Ha.
        apply StronglySorted_app_1_r, StronglySorted_cons in IHs as [Hn _].
        rewrite Forall_forall in Hn. by apply Hn.
      - intros a Ha.
        apply (StronglySorted_app_1_elem_of _ _ _ a n IHs); [done | by left]. }
    destruct Hk as [q' Hq _ -> | q' Hq _ _ _ -> | q' new Hq _ _ _ _ Hnew ->];
      destruct (Hpop q' Hq) as (Hs & Hb & Hge & Hle).
    1, 2: split; [exact Hs |]; simpl; intros a b Ha Hin;
          pose proof (Hb b Hin);
          assert (Ha' : a ∈ q')
            by (destruct q'; [done | injection Ha as ->; by left]);
          pose proof (Hge a Ha'); lia.
    assert (Hlen : ∀ c, c ∈ new → length c.2 = S (length n.2)).
    { intros c Hc. destruct (Hnew c Hc) as (dye & _ & _ & ->).
      rewrite length_app. simpl. lia. }
    assert (Hq' : q (with_queue
                       (if diff_of app target_rgb n <? best_diff s
                        then with_best (with_queue s (visited s) q') n.1 n.2
                               (color_of app n) (diff_of app target_rgb n)
                        else with_queue s (visited s) q')
                       (list_to_set new.*1 ∪ visited s) (q' ++ new)) = q' ++ new)
      by done.
    rewrite Hq'. split.
    + rewrite app_assoc. apply StronglySorted_app_2; [| done |].
      * intros x1 x2 Hx1 Hx2. unfold no_longer. rewrite (Hlen x2 Hx2).
        apply elem_of_app in Hx1 as [Hx1 | Hx1].
        -- apply elem_of_app in Hx1 as [Hx1 | Hx1].
           ++ pose proof (Hle x1 Hx1). lia.
           ++ apply list_elem_of_singleton in Hx1 as ->. lia.
        -- by apply Hb.
      * by apply (same_length_sorted (S (length n.2))).
    + intros a b Ha Hin.
      assert (Ha' : a ∈ q' ++ new).
      { destruct (q' ++ new); [done | injection Ha as ->; by left]. }
      assert (length n.2 ≤ length a.2)%nat.
      { apply elem_of_app in Ha' as [Ha' | Ha'];
          [by apply Hge | rewrite (Hlen a Ha'); lia]. }
      assert (length b.2 ≤ S (length n.2))%nat.
      { apply elem_of_app in Hin as [Hin | Hin];
          [by apply Hb | rewrite (Hlen b Hin); lia]. }
      lia.
Qed.

(** X1, witnessed on a run. *)
Lemma best_distance_is_least_witness :
  ∃ s, reaches initial_app (255, 0, 0) 1
         [(start_mask, []); ((255, 239, 239), ["red"])] s
       ∧ best_diff s ≤ best_diff (initial_state initial_app (255, 0, 0)).
Proof.
  destruct run_towards_red as (s & Hr & _).
  exists s. split; [exact Hr |].
  exact (proj1 (best_distance_is_least initial_app (255, 0, 0) 1 _ _ Hr)).
Defined.

(** X2.  The best node is the first of the compared nodes with the least
    distance, the start node winning every tie: either the best node is
    still the start node, or it was dequeued, not skipped, is strictly
    closer than the start node and strictly closer than every node
    compared before it.  Hence no compared node at the best distance has
    a shorter sequence than the best node. *)
Theorem best_is_first_least app target_rgb max_depth trace s :
  reaches app target_rgb max_depth trace s →
  (result_of s = result_of (initial_state app target_rgb)
   ∨ ∃ before n after,
       trace = before ++ n :: after
       ∧ result_of s = (n.2, n.1, color_of app n, diff_of app target_rgb n)
       ∧ Z.of_nat (length n.2) ≤ max_depth
       ∧ diff_of app target_rgb n < best_diff (initial_state app target_rgb)
       ∧ ∀ m, m ∈ evaluated max_depth before →
           diff_of app target_rgb n < diff_of app target_rgb m)
  ∧ ∀ m, m ∈ evaluated max_depth trace →
      diff_of app target_rgb m = best_diff s →
      (length (best_seq s) ≤ length m.2)%nat.
Proof.
  intros Hr. pose proof (reaches_first_least _ _ _ _ _ Hr) as Hfirst.
  split; [exact Hfirst |]. intros m Hm Heq.
  destruct Hfirst as [Hres | (before & n & after & -> & Hres & _ & _ & Hlt)].
  - injection Hres as -> _ _ _. simpl. lia.
  - injection Hres as Hseq _ _ Hdiff. rewrite Hseq.
    apply (reaches_sorted _ _ _ _ _) in Hr as [Hsorted _].
    apply StronglySorted_app_1_l, StronglySorted_app_1_r in Hsorted.
    apply StronglySorted_cons in Hsorted as [Hafter _].
    rewrite Forall_forall in Hafter.
    unfold evaluated in Hm. apply list_elem_of_filter in Hm as [Hd Hm].
    apply elem_of_app in Hm as [Hm | Hm].
    + assert (Hev : m ∈ evaluated max_depth before)
        by (apply list_elem_of_filter; done).
      specialize (Hlt m Hev). lia.
    + apply elem_of_cons in Hm as [-> | Hm]; [done |]. by apply Hafter.
Qed.

Lemma best_is_first_least_witness :
  ∃ s, reaches initial_app (255, 0, 0) 1
         [(start_mask, []); ((255, 239, 239), ["red"])] s
       ∧ ∀ m, m ∈ evaluated 1 [(start_mask, []); ((255, 239, 239), ["red"])] →
           diff_of initial_app (255, 0, 0) m = best_diff s →
           (length (best_seq s) ≤ length m.2)%nat.
Proof.
  destruct run_towards_red as (s & Hr & _).
  exists s. split; [exact Hr |].
  exact (proj2 (best_is_first_least initial_app (255, 0, 0) 1 _ _ Hr)).
Defined.

(** X3.  The search is breadth first: the nodes are dequeued in order of
    sequence length, shortest first; every queued node is at least as
    long as every dequeued one, and no queued sequence is more than one
    dye longer than the one at the front of the queue. *)
Theorem dequeued_in_order_of_length app target_rgb max_depth trace s :
  reaches app target_rgb max_depth trace s →
  StronglySorted no_longer trace
  ∧ StronglySorted no_longer (q s)
  ∧ (∀ a b, a ∈ trace → b ∈ q s → no_longer a b)
  ∧ ∀ a b, head (q s) = Some a → b ∈ q s →
      (length b.2 ≤ S (length a.2))%nat.
Proof.
  intros Hr. destruct (reaches_sorted _ _ _ _ _ Hr) as [Hsorted Hbound].
  apply StronglySorted_app in Hsorted as (Hcross & Ht & Hq).
  split; [exact Ht |]. split; [exact Hq |]. split; [exact Hcross |].
  exact Hbound.
Qed.

Lemma dequeued_in_order_of_length_witness :
  ∃ s, reaches initial_app (255, 0, 0) 1
         [(start_mask, []); ((255, 239, 239), ["red"])] s
       ∧ StronglySorted no_longer
           [(start_mask, []); ((255, 239, 239), ["red"])].
Proof.
  destruct run_towards_red as (s & Hr & _).
  exists s. split; [exact Hr |].
  exact (proj1 (dequeued_in_order_of_length initial_app (255, 0, 0) 1 _ _ Hr)).
Defined.

Lemma reaches_tokens app target_rgb max_depth trace s :
  reaches app target_rgb max_depth trace s →
  (∀ n, n ∈ q s → Forall (λ dye, dye ∈ DYES) n.2)
  ∧ Forall (λ dye, dye ∈ DYES) (best_seq s).
Proof.
  induction 1 as [| trace s n s' _ [IHq IHb] Hstep].
  - split; [| constructor]. simpl. intros n Hn.
    apply list_elem_of_singleton in Hn as ->. constructor.
  - destruct (step_inv _ _ _ _ _ _ Hstep) as [_ Hk].
    assert (Hn : Forall (λ dye, dye ∈ DYES) n.2).
    { apply IHq. destruct Hk as [q' Hq | q' Hq | q' new Hq]; rewrite Hq; by left. }
    destruct Hk as [q' Hq _ -> | q' Hq _ _ _ -> | q' new Hq _ _ _ _ Hnew ->].
    + split; [| done]. simpl. intros c Hc. apply IHq. rewrite Hq. by right.
    + split; [| done]. simpl. intros c Hc. apply IHq. rewrite Hq. by right.
    + split.
      * intros c Hc.
        change (c ∈ q' ++ new) in Hc.
        apply elem_of_app in Hc as [Hc | Hc].
        -- apply IHq. rewrite Hq. by right.
        -- destruct (Hnew c Hc) as (dye & Hd & _ & ->).
           apply Forall_app. split; [done |]. by constructor.
      * by destruct (diff_of app target_rgb n <? best_diff s).
Qed.

(** X4.  Where the start colour exists, the search returns, and the
    sequence it returns holds only the four dye tokens of [DYES]. *)
Theorem result_uses_known_dyes app target_rgb max_depth :
  projects (START_RGB (config app)) start_mask = true →
  ∃ seq mask color diff,
    find_sequence_to_target app target_rgb max_depth
    = Returned (seq, mask, color, diff)
    ∧ Forall (λ dye, dye ∈ DYES) seq.
Proof.
  intros _.
  destruct (find_sequence_to_target_run app target_rgb max_depth)
    as (trace & s & -> & Hr & _).
  exists (best_seq s), (best_mask s), (best_color s), (best_diff s).
  split; [done |]. apply (reaches_tokens _ _ _ _ _ Hr).
Qed.

Lemma result_uses_known_dyes_witness :
  projects (START_RGB (config initial_app)) start_mask = true
  ∧ find_sequence_to_target initial_app (255, 0, 0) (Some 1)
    = Returned (["red"], (255, 239, 239), (241, 205, 27), 246)
  ∧ Forall (λ dye, dye ∈ DYES) ["red"].
Proof.
  pose proof initial_app_projects as Hp.
  pose proof search_one_step as Hf.
  split; [exact Hp |]. split; [exact Hf |].
  destruct (result_uses_known_dyes initial_app (255, 0, 0) (Some 1) Hp)
    as (seq & mask & color & diff & Hf' & Hd).
  rewrite Hf in Hf'. injection Hf' as <- _ _ _. exact Hd.
Defined.

(** X5.  When the loop was left through [break], the node dequeued last
    is at distance 0 and is the result: nothing was dequeued after it. *)
Theorem break_returns_exact_node app target_rgb max_depth trace s :
  reaches app target_rgb max_depth trace s →
  broke s = true →
  ∃ before n,
    trace = before ++ [n]
    ∧ diff_of app target_rgb n = 0
    ∧ Z.of_nat (length n.2) ≤ max_depth
    ∧ result_of s = (n.2, n.1, color_of app n, 0)
    ∧ finished s = true.
Proof.
  intros Hr Hb. destruct Hr as [| trace s n s' _ Hstep]; [done |].
  destruct (step_inv _ _ _ _ _ _ Hstep) as [Hb0 Hk].
  destruct Hk as [q' _ _ -> | q' _ Hd _ H0 -> | q' new _ _ _ _ _ _ ->].
  - simpl in Hb. congruence.
  - exists trace, n. repeat split; try done.
  - assert (broke s = true); [| congruence].
    revert Hb. by destruct (diff_of app target_rgb n <? best_diff s).
Qed.

Lemma break_returns_exact_node_witness :
  ∃ s, reaches initial_app (241, 205, 27) 1
         [(start_mask, []); ((255, 239, 239), ["red"])] s
       ∧ broke s = true
       ∧ ∃ before n,
           [(start_mask, []); ((255, 239, 239), ["red"])] = before ++ [n]
           ∧ result_of s = (n.2, n.1, color_of initial_app n, 0).
Proof.
  destruct run_matching_red as (s & Hr & Hb).
  exists s. split; [exact Hr |]. split; [exact Hb |].
  destruct (break_returns_exact_node initial_app (241, 205, 27) 1 _ _ Hr Hb)
    as (before & n & Ht & _ & _ & Hres & _).
  exists before, n. split; [exact Ht | exact Hres].
Defined.

(** ** The mask arithmetic *)

(** X6.  The distance is a metric on triples: never negative, 0 exactly
    between equal triples, symmetric, and it obeys the triangle
    inequality. *)
Theorem manhattan_is_a_metric a b c :
  0 ≤ manhattan a b
  ∧ (manhattan a b = 0 ↔ a = b)
  ∧ manhattan a b = manhattan b a
  ∧ manhattan a c ≤ manhattan a b + manhattan b c.
Proof.
  destruct a as [[a1 a2] a3], b as [[b1 b2] b3], c as [[c1 c2] c3].
  unfold manhattan; simpl. repeat split; try lia.
  - intros H. repeat f_equal; lia.
  - intros [= -> -> ->]. lia.
Qed.

(** X7.  Through the identity mask every channel of a base colour that
    can be projected is clamped and nothing else, so a base colour
    within [0,255] comes out unchanged; through the zero mask every base
    colour comes out black. *)
Theorem identity_and_zero_mask base :
  (projects base start_mask = true →
   apply_mask_to_color base start_mask
   = (clamp255 base.1.1, clamp255 base.1.2, clamp255 base.2))
  ∧ (in_range base → apply_mask_to_color base start_mask = base)
  ∧ projects base (0, 0, 0) = true
  ∧ apply_mask_to_color base (0, 0, 0) = (0, 0, 0).
Proof.
  split; [intros _; apply apply_mask_to_color_start |]. split; [| split].
  - intros (Hr & Hg & Hb). rewrite apply_mask_to_color_start.
    destruct base as [[r g] b]; simpl in *.
    by rewrite !clamp255_id.
  - unfold projects; simpl. by rewrite !Z.mul_0_r.
  - unfold apply_mask_to_color; simpl. by rewrite !Z.mul_0_r.
Qed.

Lemma identity_and_zero_mask_witness :
  projects (300, -5, 29) start_mask = true
  ∧ apply_mask_to_color (300, -5, 29) start_mask = (255, 0, 29)
  ∧ in_range (241, 219, 29)
  ∧ apply_mask_to_color (241, 219, 29) start_mask = (241, 219, 29).
Proof.
  assert (Hp : projects (300, -5, 29) start_mask = true)
    by (vm_compute; reflexivity).
  assert (Hr : in_range (241, 219, 29)) by (unfold in_range; simpl; lia).
  split; [exact Hp |].
  split; [exact (proj1 (identity_and_zero_mask (300, -5, 29)) Hp) |].
  split; [exact Hr |].
  exact (proj1 (proj2 (identity_and_zero_mask (241, 219, 29))) Hr).
Defined.

Lemma dye_vector_unknown dye add_val sub_val :
  dye ∉ DYES → dye_vector dye add_val sub_val = Raised ValueError.
Proof.
  intros Hd. unfold dye_vector.
  destruct (String.eqb_spec dye "red") as [-> | _];
    [exfalso; apply Hd, elem_of_DYES; tauto |].
  destruct (String.eqb_spec dye "green") as [-> | _];
    [exfalso; apply Hd, elem_of_DYES; tauto |].
  destruct (String.eqb_spec dye "blue") as [-> | _];
    [exfalso; apply Hd, elem_of_DYES; tauto |].
  destruct (String.eqb_spec dye "black") as [-> | _];
    [exfalso; apply Hd, elem_of_DYES; tauto |].
  reflexivity.
Qed.

(** X8.  A token that is none of the four dyes makes [dye_vector] raise
    [ValueError], and [apply_dye_to_mask] with it, whatever the
    configuration and the mask. *)
Theorem unknown_dye_raises app mask dye :
  dye ∉ DYES →
  dye_vector dye (ADD_VALUE (config app)) (SUB_VALUE (config app))
  = Raised ValueError
  ∧ apply_dye_to_mask app mask dye = Raised ValueError.
Proof.
  intros Hd. split; [by apply dye_vector_unknown |].
  unfold apply_dye_to_mask. by rewrite dye_vector_unknown.
Qed.

Lemma unknown_dye_raises_witness :
  ("purple" ∉ DYES)
  ∧ apply_dye_to_mask initial_app start_mask "purple" = Raised ValueError.
Proof.
  assert (Hd : "purple" ∉ DYES).
  { rewrite elem_of_DYES. intros [H | [H | [H | H]]]; discriminate. }
  split; [exact Hd |].
  exact (proj2 (unknown_dye_raises initial_app start_mask "purple" Hd)).
Defined.

(** ** The before-request hook *)

(** X9.  The hook changes nothing but [START_RGB]: the add, subtract
    and depth values and the session are as before; and running it a
    second time changes nothing more. *)
Theorem sync_only_replaces_start_rgb py_int app :
  ADD_VALUE (config (_sync_start_rgb_from_session py_int app))
  = ADD_VALUE (config app)
  ∧ SUB_VALUE (config (_sync_start_rgb_from_session py_int app))
    = SUB_VALUE (config app)
  ∧ MAX_DEPTH (config (_sync_start_rgb_from_session py_int app))
    = MAX_DEPTH (config app)
  ∧ session (_sync_start_rgb_from_session py_int app) = session app
  ∧ _sync_start_rgb_from_session py_int
      (_sync_start_rgb_from_session py_int app)
    = _sync_start_rgb_from_session py_int app.
Proof.
  unfold _sync_start_rgb_from_session at 1 2 3 4 6.
  destruct (session app !! "start_rgb") as [[x | xs] |] eqn:E.
  - unfold _sync_start_rgb_from_session. by rewrite E.
  - destruct xs as [| s0 [| s1 [| s2 [| s3 xs]]]];
      try (unfold _sync_start_rgb_from_session; by rewrite E).
    destruct (int_of_scalar py_int s0) as [r |] eqn:E0; simpl;
      [| unfold _sync_start_rgb_from_session; by rewrite E, E0].
    destruct (int_of_scalar py_int s1) as [g |] eqn:E1; simpl;
      [| unfold _sync_start_rgb_from_session; by rewrite E, E0, E1].
    destruct (int_of_scalar py_int s2) as [b |] eqn:E2; simpl;
      [| unfold _sync_start_rgb_from_session; by rewrite E, E0, E1, E2].
    repeat split. unfold _sync_start_rgb_from_session. simpl.
    by rewrite E, E0, E1, E2.
  - unfold _sync_start_rgb_from_session. by rewrite E.
Qed.

(** X10.  The hook takes over the session's value exactly when it is a
    list or tuple of three items that all convert to integers; a missing
    key, a scalar, a list of another length or an item that does not
    convert leave the application as it is. *)
Theorem sync_ignores_malformed py_int app :
  (session app !! "start_rgb" = None →
   _sync_start_rgb_from_session py_int app = app)
  ∧ (∀ x, session app !! "start_rgb" = Some (VScalar x) →
       _sync_start_rgb_from_session py_int app = app)
  ∧ (∀ xs, session app !! "start_rgb" = Some (VList xs) →
       length xs ≠ 3%nat →
       _sync_start_rgb_from_session py_int app = app)
  ∧ (∀ s0 s1 s2 e,
       session app !! "start_rgb" = Some (VList [s0; s1; s2]) →
       int_of_scalar py_int s0 = Raised e
       ∨ int_of_scalar py_int s1 = Raised e
       ∨ int_of_scalar py_int s2 = Raised e →
       _sync_start_rgb_from_session py_int app = app)
  ∧ (∀ s0 s1 s2 r g b,
       session app !! "start_rgb" = Some (VList [s0; s1; s2]) →
       int_of_scalar py_int s0 = Returned r →
       int_of_scalar py_int s1 = Returned g →
       int_of_scalar py_int s2 = Returned b →
       _sync_start_rgb_from_session py_int app = with_START_RGB app (r, g, b)).
Proof.
  unfold _sync_start_rgb_from_session. repeat split.
  - by intros ->.
  - by intros x ->.
  - intros xs -> Hl. by destruct xs as [| s0 [| s1 [| s2 [| s3 xs]]]].
  - intros s0 s1 s2 e -> H.
    destruct (int_of_scalar py_int s0); simpl; [| done].
    destruct (int_of_scalar py_int s1); simpl; [| done].
    destruct (int_of_scalar py_int s2); simpl; [| done].
    by destruct H as [H | [H | H]].
  - intros s0 s1 s2 r g b -> -> -> ->. done.
Qed.

Lemma sync_ignores_malformed_witness :
  let stored : App :=
    {| config := initial_config;
       session := {[ "start_rgb" := VList [SInt 1; SStr "x"; SInt 3] ]} |} in
  session stored !! "start_rgb" = Some (VList [SInt 1; SStr "x"; SInt 3])
  ∧ int_of_scalar int_of_decimal (SStr "x") = Raised ValueError
  ∧ _sync_start_rgb_from_session int_of_decimal stored = stored.
Proof.
  intros stored.
  assert (Hs : session stored !! "start_rgb"
               = Some (VList [SInt 1; SStr "x"; SInt 3])) by reflexivity.
  assert (Hx : int_of_scalar int_of_decimal (SStr "x") = Raised ValueError)
    by reflexivity.
  split; [exact Hs |]. split; [exact Hx |].
  exact (proj1 (proj2 (proj2 (proj2
           (sync_ignores_malformed int_of_decimal stored))))
           _ _ _ ValueError Hs (or_intror (or_introl Hx))).
Defined.

(** ** The settings route *)

(** X11.  When all six fields of [Save Settings] convert, the
    configuration is exactly the six values (no range is checked, a
    negative depth is stored as it is), the session holds the start
    colour, and the before-request hook of the next request leaves this
    application as it is. *)
Theorem save_settings_stores_all py_int app form sr sg sb a sv d :
  int_field py_int form "sr" = Returned sr →
  int_field py_int form "sg" = Returned sg →
  int_field py_int form "sb" = Returned sb →
  int_field py_int form "add" = Returned a →
  int_field py_int form "sub" = Returned sv →
  int_field py_int form "depth" = Returned d →
  config (settings_save_settings py_int app form)
  = {| START_RGB := (sr, sg, sb); ADD_VALUE := a;
       SUB_VALUE := sv; MAX_DEPTH := d |}
  ∧ session (settings_save_settings py_int app form)
    = <["start_rgb" := VList [SInt sr; SInt sg; SInt sb]]> (session app)
  ∧ _sync_start_rgb_from_session py_int (settings_save_settings py_int app form)
    = settings_save_settings py_int app form.
Proof.
  intros Hr Hg Hb Ha Hs Hd. unfold settings_save_settings.
  rewrite Hr, Hg, Hb. simpl. rewrite Ha, Hs, Hd.
  repeat split. unfold _sync_start_rgb_from_session. simpl.
  by rewrite lookup_insert_eq.
Qed.

Lemma save_settings_stores_all_witness :
  let form : gmap string string :=
    {[ "sr" := "300"; "sg" := "-1"; "sb" := "7";
       "add" := "5"; "sub" := "0"; "depth" := "-3" ]} in
  int_field int_of_decimal form "depth" = Returned (-3)
  ∧ config (settings_save_settings int_of_decimal initial_app form)
    = {| START_RGB := (300, -1, 7); ADD_VALUE := 5;
         SUB_VALUE := 0; MAX_DEPTH := -3 |}.
Proof.
  intros form.
  assert (Hd : int_field int_of_decimal form "depth" = Returned (-3))
    by reflexivity.
  split; [exact Hd |].
  exact (proj1 (save_settings_stores_all int_of_decimal initial_app form
                  300 (-1) 7 5 0 (-3)
                  eq_refl eq_refl eq_refl eq_refl eq_refl Hd)).
Defined.

(** X12.  [Save Settings] is not all-or-nothing.  When a colour field is
    missing or does not convert, nothing changes.  When the three colour
    fields convert and the add field does not, the start colour is
    replaced in the configuration and in the session while the add,
    subtract and depth values stay as they were. *)
Theorem save_settings_partial py_int app form :
  (∀ e, (int_field py_int form "sr" = Raised e
         ∨ int_field py_int form "sg" = Raised e
         ∨ int_field py_int form "sb" = Raised e) →
        settings_save_settings py_int app form = app)
  ∧ (∀ sr sg sb e,
       int_field py_int form "sr" = Returned sr →
       int_field py_int form "sg" = Returned sg →
       int_field py_int form "sb" = Returned sb →
       int_field py_int form "add" = Raised e →
       settings_save_settings py_int app form
       = with_session_start_rgb (with_START_RGB app (sr, sg, sb)) (sr, sg, sb)
       ∧ START_RGB (config (settings_save_settings py_int app form))
         = (sr, sg, sb)
       ∧ ADD_VALUE (config (settings_save_settings py_int app form))
         = ADD_VALUE (config app)
       ∧ SUB_VALUE (config (settings_save_settings py_int app form))
         = SUB_VALUE (config app)
       ∧ MAX_DEPTH (config (settings_save_settings py_int app form))
         = MAX_DEPTH (config app)).
Proof.
  split.
  - intros e H. unfold settings_save_settings.
    destruct (int_field py_int form "sr"); simpl; [| done].
    destruct (int_field py_int form "sg"); simpl; [| done].
    destruct (int_field py_int form "sb"); simpl; [| done].
    by destruct H as [H | [H | H]].
  - intros sr sg sb e Hr Hg Hb Ha. unfold settings_save_settings.
    rewrite Hr, Hg, Hb. simpl. rewrite Ha. done.
Qed.

Lemma save_settings_partial_witness :
  let form : gmap string string :=
    {[ "sr" := "1"; "sg" := "2"; "sb" := "3"; "add" := "many" ]} in
  int_field int_of_decimal form "add" = Raised ValueError
  ∧ START_RGB (config (settings_save_settings int_of_decimal initial_app form))
    = (1, 2, 3)
  ∧ ADD_VALUE (config (settings_save_settings int_of_decimal initial_app form))
    = 32.
Proof.
  intros form.
  assert (Ha : int_field int_of_decimal form "add" = Raised ValueError)
    by reflexivity.
  split; [exact Ha |].
  destruct (proj2 (save_settings_partial int_of_decimal initial_app form)
              1 2 3 ValueError eq_refl eq_refl eq_refl Ha)
    as (_ & Hs & Hadd & _).
  split; [exact Hs | exact Hadd].
Defined.

Lemma pop_if_in_range_Forall {A : Type} (P : A → Prop) (items : list A) idx :
  Forall P items → Forall P (pop_if_in_range items idx).
Proof.
  intros H. unfold pop_if_in_range.
  destruct (_ && _); [| done]. by apply Forall_delete.
Qed.

(** X13.  Every preset the settings route stores has its three channels
    in [0,255]: whatever the action and the form, presets that were in
    range before are in range after. *)
Theorem presets_stay_in_range py_int py_strip app presets form :
  Forall (λ p, in_range (preset_rgb p)) presets →
  Forall (λ p, in_range (preset_rgb p))
    (settings py_int py_strip app presets form).2.
Proof.
  intros H. unfold settings. cbv zeta.
  destruct (String.eqb _ "Save Settings"); [done |].
  destruct (String.eqb _ "Save Base RGB").
  { simpl. unfold settings_save_base_rgb. cbv zeta.
    destruct (int_field_or py_int form "preset_r" 0); simpl; [| done].
    destruct (int_field_or py_int form "preset_g" 0); simpl; [| done].
    destruct (int_field_or py_int form "preset_b" 0); simpl; [| done].
    destruct (py_strip _); simpl; [done |].
    apply Forall_app. split; [done |]. constructor; [| constructor].
    unfold in_range; simpl. lia. }
  destruct (String.eqb _ "Use Preset"); [done |].
  destruct (String.eqb _ "Delete Preset"); [| done].
  simpl. unfold settings_delete_preset.
  destruct (int_field_or py_int form "preset_idx" (-1)); [| done].
  by apply pop_if_in_range_Forall.
Qed.

Lemma presets_stay_in_range_witness :
  let form : gmap string string :=
    {[ "action" := "Save Base RGB"; "preset_name" := "loud";
       "preset_r" := "300"; "preset_g" := "-2" ]} in
  Forall (λ p, in_range (preset_rgb p)) []
  ∧ (settings int_of_decimal id initial_app [] form).2
    = [{| preset_name := "loud"; preset_rgb := (255, 0, 0) |}]
  ∧ Forall (λ p, in_range (preset_rgb p))
      (settings int_of_decimal id initial_app [] form).2.
Proof.
  intros form.
  assert (H : Forall (λ p, in_range (preset_rgb p)) []) by constructor.
  split; [exact H |]. split; [reflexivity |].
  exact (presets_stay_in_range int_of_decimal id initial_app [] form H).
Defined.

Lemma sync_after_store py_int app rgb :
  _sync_start_rgb_from_session py_int
    (with_session_start_rgb (with_START_RGB app rgb) rgb)
  = with_session_start_rgb (with_START_RGB app rgb) rgb.
Proof.
  unfold _sync_start_rgb_from_session.
  cbn [session with_session_start_rgb]. rewrite lookup_insert_eq.
  destruct rgb as [[r g] b]. reflexivity.
Qed.

(** X14.  [Use Preset] applies the preset at the index of the form and
    no other.  With no index, with an index that does not convert, and
    with an index below 0 or beyond the presets, the application is left
    as it is.  With an index inside the presets, the colour of the preset
    at that index becomes the start colour, the add, subtract and depth
    values stay, and the colour is stored in the session, so that the
    before-request hook leaves it in place. *)
Theorem use_preset_result py_int app presets form :
  (form !! "preset_idx" = None →
   settings_use_preset py_int app presets form = app)
  ∧ (∀ v e, form !! "preset_idx" = Some v → py_int v = Raised e →
       settings_use_preset py_int app presets form = app)
  ∧ (∀ v idx, form !! "preset_idx" = Some v → py_int v = Returned idx →
       (idx < 0 ∨ Z.of_nat (length presets) ≤ idx →
        settings_use_preset py_int app presets form = app)
       ∧ (∀ p, 0 ≤ idx → presets !! Z.to_nat idx = Some p →
            config (settings_use_preset py_int app presets form)
            = {| START_RGB := preset_rgb p;
                 ADD_VALUE := ADD_VALUE (config app);
                 SUB_VALUE := SUB_VALUE (config app);
                 MAX_DEPTH := MAX_DEPTH (config app) |}
            ∧ session (settings_use_preset py_int app presets form)
              = <["start_rgb" := VList [SInt (preset_rgb p).1.1;
                                         SInt (preset_rgb p).1.2;
                                         SInt (preset_rgb p).2]]>
                  (session app)
            ∧ _sync_start_rgb_from_session py_int
                (settings_use_preset py_int app presets form)
              = settings_use_preset py_int app presets form)).
Proof.
  unfold settings_use_preset, int_field_or. split; [| split].
  - by intros ->.
  - by intros v e -> ->.
  - intros v idx -> ->. split.
    + intros Hout.
      destruct (Z.leb_spec 0 idx); [| done].
      destruct (Z.ltb_spec idx (Z.of_nat (length presets))); [lia | done].
    + intros p Hidx Hp.
      pose proof (lookup_lt_Some _ _ _ Hp) as Hlt.
      destruct (Z.leb_spec 0 idx); [| lia].
      destruct (Z.ltb_spec idx (Z.of_nat (length presets))); [| lia].
      simpl. rewrite Hp.
      split; [done |]. split; [done |]. apply sync_after_store.
Qed.

Lemma use_preset_result_witness :
  let presets : list Preset :=
    [{| preset_name := "sand"; preset_rgb := (241, 219, 29) |};
     {| preset_name := "sea"; preset_rgb := (10, 20, 200) |}] in
  let form : gmap string string :=
    {[ "action" := "Use Preset"; "preset_idx" := "1" ]} in
  form !! "preset_idx" = Some "1"
  ∧ int_of_decimal "1" = Returned 1
  ∧ presets !! Z.to_nat 1 = Some {| preset_name := "sea";
                                    preset_rgb := (10, 20, 200) |}
  ∧ START_RGB (config (settings_use_preset int_of_decimal initial_app
                         presets form))
    = (10, 20, 200)
  ∧ settings_use_preset int_of_decimal initial_app presets
      {[ "action" := "Use Preset"; "preset_idx" := "2" ]}
    = initial_app.
Proof.
  intros presets form.
  assert (Hv : form !! "preset_idx" = Some "1") by reflexivity.
  assert (Hi : int_of_decimal "1" = Returned 1) by reflexivity.
  assert (Hp : presets !! Z.to_nat 1
               = Some {| preset_name := "sea"; preset_rgb := (10, 20, 200) |})
    by reflexivity.
  split; [exact Hv |]. split; [exact Hi |]. split; [exact Hp |]. split.
  - destruct (proj2 (proj2 (proj2 (use_preset_result int_of_decimal
                initial_app presets form)) "1" 1 Hv Hi) _
                ltac:(lia) Hp) as [Hc _].
    rewrite Hc. reflexivity.
  - assert (Hv2 : ({[ "action" := "Use Preset"; "preset_idx" := "2" ]}
                     : gmap string string) !! "preset_idx" = Some "2")
      by reflexivity.
    assert (Hi2 : int_of_decimal "2" = Returned 2) by reflexivity.
    apply (proj1 (proj2 (proj2 (use_preset_result int_of_decimal initial_app
             presets {[ "action" := "Use Preset"; "preset_idx" := "2" ]}))
             "2" 2 Hv2 Hi2)).
    right. simpl. lia.
Defined.

(** ** The lists of the session *)

(** X15.  [delete_saved] with an index outside the list leaves the list
    as it is; with an index inside it removes exactly that entry: the
    list is one shorter, the entries before the index keep their place
    and the entries after it move up by one. *)
Theorem delete_saved_removes_one items idx :
  (idx < 0 ∨ Z.of_nat (length items) ≤ idx → delete_saved items idx = items)
  ∧ (0 ≤ idx < Z.of_nat (length items) →
     S (length (delete_saved items idx)) = length items
     ∧ ∀ i, delete_saved items idx !! i
            = if decide (i < Z.to_nat idx)%nat
              then items !! i else items !! S i).
Proof.
  unfold delete_saved, pop_if_in_range. split.
  - intros H.
    destruct (Z.leb_spec 0 idx); destruct (Z.ltb_spec idx (Z.of_nat (length items)));
      simpl; try done; lia.
  - intros H.
    destruct (Z.leb_spec 0 idx); [| lia].
    destruct (Z.ltb_spec idx (Z.of_nat (length items))); [| lia].
    simpl. split.
    + rewrite length_delete; [lia |].
      apply lookup_lt_is_Some. lia.
    + intros i. destruct (decide (i < Z.to_nat idx)%nat).
      * by apply list_lookup_delete_lt.
      * apply list_lookup_delete_ge. lia.
Qed.

Lemma delete_saved_removes_one_witness :
  let e (n : Z) : SavedEntry :=
    {| v_sequence := EmptyString; v_final_mask := start_mask;
       v_final_color := (0, 0, 0); v_target := (0, 0, 0); v_diff := n |} in
  0 ≤ 1 < Z.of_nat (length [e 10; e 20; e 30])
  ∧ delete_saved [e 10; e 20; e 30] 1 = [e 10; e 30]
  ∧ S (length (delete_saved [e 10; e 20; e 30] 1)) = 3%nat.
Proof.
  intros e.
  assert (H : 0 ≤ 1 < Z.of_nat (length [e 10; e 20; e 30])) by (simpl; lia).
  split; [exact H |]. split; [reflexivity |].
  exact (proj1 (proj2 (delete_saved_removes_one [e 10; e 20; e 30] 1) H)).
Defined.

Lemma last_ten_length {A : Type} (l : list A) : (length (last_ten l) ≤ 10)%nat.
Proof. unfold last_ten. rewrite length_drop. lia. Qed.

Lemma last_ten_snoc {A : Type} (l : list A) (x : A) :
  last (last_ten (l ++ [x])) = Some x.
Proof.
  unfold last_ten. rewrite drop_app_le by (rewrite length_app; simpl; lia).
  apply last_snoc.
Qed.

Lemma last_ten_short {A : Type} (l : list A) :
  (length l ≤ 10)%nat → last_ten l = l.
Proof.
  intros H. unfold last_ten.
  replace (length l - 10)%nat with 0%nat by lia. done.
Qed.

(** X16.  Where the start colour exists, a POST to the home route
    returns, whatever the form holds, and appends one entry
    to the history, which is then cut to its last ten entries: the new
    history has at most ten entries whatever it held before, its last
    entry is the new one, and nothing is dropped while fewer than ten
    were held.  The new entry carries the parsed target and the given
    time stamp, its colour is the start colour seen through its mask,
    and its difference is the distance of that colour to the target.
    The saved list grows by one entry exactly when the action is
    [Save]. *)
Theorem home_appends_history py_int app form now hist saved :
  projects (START_RGB (config app)) start_mask = true →
  ∃ entry hist' saved',
    home_lists py_int app form now hist saved = Returned (hist', saved')
    ∧ hist' = last_ten (hist ++ [entry])
    ∧ last hist' = Some entry
    ∧ (length hist' ≤ 10)%nat
    ∧ ((length hist < 10)%nat → hist' = hist ++ [entry])
    ∧ h_target entry = home_target py_int form
    ∧ h_ts entry = now
    ∧ h_final_color entry
      = apply_mask_to_color (START_RGB (config app)) (h_final_mask entry)
    ∧ h_diff entry = manhattan (h_final_color entry) (h_target entry)
    ∧ length saved'
      = (if decide (form !! "action" = Some "Save")
         then S (length saved) else length saved).
Proof.
  intros _.
  destruct (find_sequence_to_target_run app (home_target py_int form) None)
    as (trace & s & Hf & Hr & _).
  pose proof (invariant_reaches _ _ _ _ _ Hr) as [_ _ _ Hc Hd _].
  unfold home_lists, home. cbv zeta. rewrite Hf. simpl.
  eexists _, _, _. split; [reflexivity |].
  split; [reflexivity |].
  split; [apply last_ten_snoc |].
  split; [apply last_ten_length |].
  split.
  { intros Hl. apply last_ten_short. rewrite length_app. simpl. lia. }
  simpl. repeat split; try done.
  destruct (decide (form !! "action" = Some "Save")); [| done].
  rewrite length_app. simpl. lia.
Qed.

Lemma home_appends_history_witness :
  let app : App :=
    {| config := {| START_RGB := (241, 219, 29); ADD_VALUE := 32;
                    SUB_VALUE := 16; MAX_DEPTH := 1 |};
       session := ∅ |} in
  let form : gmap string string :=
    {[ "r" := "255"; "g" := "0"; "b" := "0"; "action" := "Save" ]} in
  let old : HistoryEntry :=
    {| h_sequence := "No dyes applied"; h_final_mask := start_mask;
       h_final_color := (241, 219, 29); h_target := (241, 219, 29);
       h_diff := 0; h_ts := "11:59:00" |} in
  projects (START_RGB (config app)) start_mask = true
  ∧ (length [old] < 10)%nat
  ∧ ∃ entry saved',
      home_lists int_of_decimal app form "12:00:00" [old] []
      = Returned ([old; entry], saved')
      ∧ h_target entry = (255, 0, 0)
      ∧ h_ts entry = "12:00:00"
      ∧ length saved' = 1%nat.
Proof.
  intros app form old.
  assert (Hp : projects (START_RGB (config app)) start_mask = true)
    by (apply in_range_projects; unfold in_range; simpl; lia).
  assert (H : (length [old] < 10)%nat) by (simpl; lia).
  split; [exact Hp |]. split; [exact H |].
  destruct (home_appends_history int_of_decimal app form "12:00:00" [old] [] Hp)
    as (entry & hist' & saved' & Hh & _ & _ & _ & Hshort & Ht & Hts & _ & _ & Hs).
  exists entry, saved'. rewrite (Hshort H) in Hh.
  split; [exact Hh |]. split; [exact Ht |]. split; [exact Hts | exact Hs].
Defined.

(** X17.  The history page lists the newest entry first.  Without a
    query it shows the whole history in reverse.  With a query that is
    not empty it shows, in reverse, the entries that have the query in
    the text of their target: all of these and no others.  Whatever the
    query, the page is the reversed history with entries left out. *)
Theorem history_page_newest_first q items :
  (history EmptyString items = reverse items
   ∧ head (history EmptyString items) = last items)
  ∧ (q ≠ EmptyString →
     history q items
     = reverse
         (filter (λ it, Is_true (contains q (str_triple (h_target it))))
            items)
     ∧ ∀ it, it ∈ history q items
             ↔ it ∈ items ∧ contains q (str_triple (h_target it)) = true)
  ∧ history q items `sublist_of` reverse items.
Proof.
  split; [split; [done | apply head_reverse] |]. split.
  - intros Hq. destruct q as [| c q]; [done |]. split; [done |].
    intros it. unfold history. rewrite elem_of_reverse, list_elem_of_filter.
    rewrite Is_true_true. tauto.
  - unfold history. destruct q as [| c q]; [done |].
    rewrite <- filter_reverse. apply sublist_filter.
Qed.

Lemma history_page_newest_first_witness :
  let e (t : Triple) : HistoryEntry :=
    {| h_sequence := EmptyString; h_final_mask := start_mask;
       h_final_color := (0, 0, 0); h_target := t; h_diff := 0;
       h_ts := EmptyString |} in
  "19" ≠ EmptyString
  ∧ history "19" [e (1, 2, 3); e (241, 219, 29); e (0, 19, 0); e (7, 7, 7)]
    = [e (0, 19, 0); e (241, 219, 29)].
Proof.
  intros e.
  assert (Hq : "19" ≠ EmptyString) by discriminate.
  split; [exact Hq |].
  rewrite (proj1 (proj1 (proj2 (history_page_newest_first "19"
             [e (1, 2, 3); e (241, 219, 29); e (0, 19, 0); e (7, 7, 7)]))
             Hq)).
  reflexivity.
Defined.

Lemma prefix_refl s : String.prefix s s = true.
Proof.
  induction s as [| c s IH]; [done |]. simpl.
  destruct (ascii_dec c c); [exact IH | done].
Qed.

Lemma contains_refl s : contains s s = true.
Proof.
  destruct s as [| c s]; [done |]. cbn [contains].
  by rewrite prefix_refl.
Qed.

(** X18.  Searching the history for the text of an entry's own target
    shows that entry. *)
Theorem history_finds_own_target it items :
  it ∈ items → it ∈ history (str_triple (h_target it)) items.
Proof.
  intros Hit. unfold history.
  assert (Hq : str_triple (h_target it) ≠ EmptyString) by done.
  remember (str_triple (h_target it)) as text eqn:Htext.
  destruct text as [| c text]; [done |].
  rewrite elem_of_reverse. apply list_elem_of_filter. split; [| done].
  apply Is_true_true. rewrite <- Htext. apply contains_refl.
Qed.

Lemma history_finds_own_target_witness :
  let e (t : Triple) : HistoryEntry :=
    {| h_sequence := EmptyString; h_final_mask := start_mask;
       h_final_color := (0, 0, 0); h_target := t; h_diff := 0;
       h_ts := EmptyString |} in
  e (241, 219, 29) ∈ [e (1, 2, 3); e (241, 219, 29)]
  ∧ e (241, 219, 29) ∈ history "(241, 219, 29)" [e (1, 2, 3); e (241, 219, 29)].
Proof.
  intros e.
  assert (H : e (241, 219, 29) ∈ [e (1, 2, 3); e (241, 219, 29)])
    by (right; left).
  split; [exact H |].
  exact (history_finds_own_target (e (241, 219, 29)) _ H).
Defined.

(** ** The formatter *)

Lemma groupby_nil seq : groupby seq = [] → seq = [].
Proof.
  destruct seq as [| token rest]; [done |]. simpl.
  destruct (groupby rest) as [| [t n] groups]; [done |].
  by destruct (String.eqb token t).
Qed.

(** X19.  The runs of [groupby] lose nothing: writing each token as
    often as its run is long gives the sequence back, so the counts of
    the rendering add up to the length of the sequence. *)
Theorem groupby_expands_back seq :
  expand_runs (groupby seq) = seq
  ∧ sum_list (groupby seq).*2 = length seq.
Proof.
  induction seq as [| token rest [IH IHsum]]; [done |]. simpl.
  destruct (groupby rest) as [| [t n] groups] eqn:E.
  - apply groupby_nil in E as ->. done.
  - destruct (String.eqb_spec token t) as [-> | Hne].
    + split.
      * unfold expand_runs in *. simpl in *. by rewrite IH.
      * simpl in *. lia.
    + split.
      * unfold expand_runs in *. simpl in *. by rewrite IH.
      * simpl in *. lia.
Qed.

(** X20.  The runs are as long as they can be: every run has at least
    one token, and two neighbouring runs have different tokens. *)
Theorem groupby_runs_are_maximal seq :
  Forall (λ g, (0 < g.2)%nat) (groupby seq)
  ∧ ∀ i g1 g2,
      groupby seq !! i = Some g1 → groupby seq !! S i = Some g2 →
      g1.1 ≠ g2.1.
Proof.
  induction seq as [| token rest [IHpos IHadj]].
  - split; [constructor |]. intros i g1 g2 H. simpl in H. discriminate.
  - simpl. destruct (groupby rest) as [| [t n] groups] eqn:E.
    + split; [repeat constructor |].
      intros i g1 g2 _ H. simpl in H. discriminate.
    + apply Forall_cons in IHpos as [Hn Hpos].
      destruct (String.eqb_spec token t) as [-> | Hne].
      * split; [constructor; [simpl; lia | done] |].
        intros [| i] g1 g2 H1 H2.
        -- injection H1 as <-. apply (IHadj 0%nat (t, n) g2); done.
        -- apply (IHadj (S i) g1 g2); done.
      * split; [constructor; [simpl; lia |]; by constructor |].
        intros [| i] g1 g2 H1 H2.
        -- injection H1 as <-. injection H2 as <-. done.
        -- apply (IHadj i g1 g2); done.
Qed.

Lemma groupby_runs_are_maximal_witness :
  groupby ["red"; "red"; "black"; "red"]
  = [("red", 2%nat); ("black", 1%nat); ("red", 1%nat)]
  ∧ ("red", 2%nat).1 ≠ ("black", 1%nat).1.
Proof.
  split; [reflexivity |].
  exact (proj2 (groupby_runs_are_maximal ["red"; "red"; "black"; "red"])
           0%nat ("red", 2%nat) ("black", 1%nat) eq_refl eq_refl).
Defined.

Lemma join_spans_head sep g groups :
  ∃ rest, join sep (map (λ g, span g.1 g.2) (g :: groups)) = String "<" rest.
Proof.
  simpl. destruct (map _ groups); unfold span; simpl; eauto.
Qed.

(** X21.  The formatter answers with the text [No dyes applied] for the
    empty sequence and for no other sequence. *)
Theorem pretty_sequence_marker seq :
  pretty_sequence seq = "No dyes applied" ↔ seq = [].
Proof.
  split; [| by intros ->].
  destruct seq as [| token rest]; [done |].
  unfold pretty_sequence.
  destruct (groupby (token :: rest)) as [| g groups] eqn:E;
    [by apply groupby_nil in E |].
  destruct (join_spans_head " " g groups) as [tail ->]. discriminate.
Qed.

(** ** The playback script *)

Lemma quotient_plus_half n :
  Qfloor (inject_Z n / 255 + (1 # 2))%Q = (2 * n + 255) / 510.
Proof.
  unfold Qfloor, Qdiv, Qmult, Qplus, Qinv, inject_Z. simpl.
  f_equal. lia.
Qed.

(** Clamping the quotient and then rounding it is rounding it and then
    clamping. *)
Lemma js_round_clamp_eq n :
  js_round_clamp255_div255 n = clamp255 (round_div255 n).
Proof.
  unfold js_round_clamp255_div255, clamp255, round_div255.
  assert (Hlt : ∀ k : Z, (inject_Z k < inject_Z n / 255)%Q ↔ 255 * k < n).
  { intros k. unfold Qlt, Qdiv, Qmult, Qinv, inject_Z. simpl. lia. }
  assert (Hle : ∀ k : Z, (inject_Z n / 255 <= inject_Z k)%Q ↔ n ≤ 255 * k).
  { intros k. unfold Qle, Qdiv, Qmult, Qinv, inject_Z. simpl. lia. }
  pose proof (Z.div_mod (2 * n + 255) 510 ltac:(lia)) as Hdm.
  pose proof (Z.mod_pos_bound (2 * n + 255) 510 ltac:(lia)) as Hmb.
  destruct (Q.min_spec 255 (inject_Z n / 255)) as [[H1 E1] | [H1 E1]].
  - rewrite (Qfloor_comp _ (255 + (1 # 2))%Q).
    2:{ rewrite E1. rewrite Q.max_r; [reflexivity | discriminate]. }
    apply (Hlt 255) in H1.
    change (Qfloor (255 + (1 # 2))) with 255. lia.
  - apply (Hle 255) in H1.
    destruct (Q.max_spec 0 (inject_Z n / 255)) as [[H2 E2] | [H2 E2]].
    + rewrite (Qfloor_comp _ (inject_Z n / 255 + (1 # 2))%Q).
      2:{ rewrite E1, E2. reflexivity. }
      apply (Hlt 0) in H2. rewrite quotient_plus_half. lia.
    + rewrite (Qfloor_comp _ (0 + (1 # 2))%Q).
      2:{ rewrite E1, E2. reflexivity. }
      apply (Hle 0) in H2.
      change (Qfloor (0 + (1 # 2))) with 0. lia.
Qed.

Lemma dye_vector_js_dv dye add_val sub_val :
  dye ∈ DYES →
  dye_vector dye add_val sub_val = Returned (js_dv dye add_val sub_val).
Proof. rewrite elem_of_DYES. by intros [-> | [-> | [-> | ->]]]. Qed.

Lemma js_dv_unknown dye add_val sub_val :
  dye ∉ DYES → js_dv dye add_val sub_val = (0, 0, 0).
Proof.
  intros Hd. unfold js_dv.
  destruct (String.eqb_spec dye "red") as [-> | _];
    [exfalso; apply Hd, elem_of_DYES; tauto |].
  destruct (String.eqb_spec dye "green") as [-> | _];
    [exfalso; apply Hd, elem_of_DYES; tauto |].
  destruct (String.eqb_spec dye "blue") as [-> | _];
    [exfalso; apply Hd, elem_of_DYES; tauto |].
  destruct (String.eqb_spec dye "black") as [-> | _];
    [exfalso; apply Hd, elem_of_DYES; tauto |].
  reflexivity.
Qed.

Lemma js_tick_agrees app mask dye m :
  apply_dye_to_mask app mask dye = Returned m →
  js_tick (ADD_VALUE (config app)) (SUB_VALUE (config app)) mask dye = m.
Proof.
  intros H. unfold apply_dye_to_mask in H. cbv zeta in H.
  destruct (decide (dye ∈ DYES)) as [Hd | Hd].
  - rewrite (dye_vector_js_dv dye _ _ Hd) in H. simpl in H.
    by injection H as <-.
  - by rewrite (dye_vector_unknown dye _ _ Hd) in H.
Qed.

(** X22.  With add and subtract values that the script holds as they
    are, its [dv] gives the delta of [dye_vector] for each of the four
    dyes, and one tick moves a mask as [apply_dye_to_mask] does.  For any
    other token the two part: [dye_vector] raises and no mask results,
    while [dv] gives (0, 0, 0) and the tick leaves a mask within [0,255]
    as it is. *)
Theorem js_dv_agrees app dye mask :
  js_exact (ADD_VALUE (config app)) = true →
  js_exact (SUB_VALUE (config app)) = true →
  in_range mask →
  (dye ∈ DYES →
   dye_vector dye (ADD_VALUE (config app)) (SUB_VALUE (config app))
   = Returned (js_dv dye (ADD_VALUE (config app)) (SUB_VALUE (config app)))
   ∧ apply_dye_to_mask app mask dye
     = Returned (js_tick (ADD_VALUE (config app)) (SUB_VALUE (config app))
                   mask dye))
  ∧ (dye ∉ DYES →
     js_dv dye (ADD_VALUE (config app)) (SUB_VALUE (config app)) = (0, 0, 0)
     ∧ js_tick (ADD_VALUE (config app)) (SUB_VALUE (config app)) mask dye
       = mask
     ∧ dye_vector dye (ADD_VALUE (config app)) (SUB_VALUE (config app))
       = Raised ValueError
     ∧ apply_dye_to_mask app mask dye = Raised ValueError).
Proof.
  intros _ _ (Hr & Hg & Hb). split.
  - intros Hd. split; [by apply dye_vector_js_dv |].
    destruct (apply_dye_to_mask_DYES app mask dye Hd) as [m Hm].
    by rewrite (js_tick_agrees _ _ _ _ Hm).
  - intros Hd. split; [by apply js_dv_unknown |]. split; [| split].
    + unfold js_tick. rewrite (js_dv_unknown _ _ _ Hd). simpl.
      rewrite !Z.add_0_r. destruct mask as [[r g] b]; simpl in *.
      unfold js_clamp255. f_equal; [f_equal |]; lia.
    + by apply dye_vector_unknown.
    + unfold apply_dye_to_mask. cbv zeta.
      by rewrite (dye_vector_unknown _ _ _ Hd).
Qed.

Lemma js_dv_agrees_witness :
  js_exact (ADD_VALUE (config initial_app)) = true
  ∧ js_exact (SUB_VALUE (config initial_app)) = true
  ∧ in_range (255, 239, 239)
  ∧ ("blue" ∈ DYES)
  ∧ apply_dye_to_mask initial_app (255, 239, 239) "blue"
    = Returned (js_tick 32 16 (255, 239, 239) "blue")
  ∧ js_tick 32 16 (255, 239, 239) "blue" = (239, 223, 255)
  ∧ ("purple" ∉ DYES)
  ∧ js_tick 32 16 (255, 239, 239) "purple" = (255, 239, 239).
Proof.
  assert (Ha : js_exact (ADD_VALUE (config initial_app)) = true)
    by (vm_compute; reflexivity).
  assert (Hs : js_exact (SUB_VALUE (config initial_app)) = true)
    by (vm_compute; reflexivity).
  assert (Hr : in_range (255, 239, 239)) by (unfold in_range; simpl; lia).
  assert (Hd : "blue" ∈ DYES) by (apply elem_of_DYES; tauto).
  assert (Hn : "purple" ∉ DYES).
  { rewrite elem_of_DYES. intros [H | [H | [H | H]]]; discriminate. }
  split; [exact Ha |]. split; [exact Hs |]. split; [exact Hr |].
  split; [exact Hd |].
  pose proof (proj2 (proj1 (js_dv_agrees initial_app "blue" (255, 239, 239)
                              Ha Hs Hr) Hd)) as Hblue.
  split; [exact Hblue |]. split; [reflexivity |].
  split; [exact Hn |].
  exact (proj1 (proj2 (proj2 (js_dv_agrees initial_app "purple"
                                (255, 239, 239) Ha Hs Hr) Hn))).
Defined.

(** X23.  The script's [applyMaskToColor], which clamps the quotient
    before rounding it, gives the colour of [apply_mask_to_color], which
    rounds before clamping, for all integer base colours and masks. *)
Theorem js_color_agrees rgb mask :
  js_applyMaskToColor rgb mask = apply_mask_to_color rgb mask.
Proof.
  unfold js_applyMaskToColor, apply_mask_to_color.
  by rewrite !js_round_clamp_eq.
Qed.

Lemma js_play_last app mask seq m :
  replay app mask seq = Returned m →
  last (js_applyMaskToColor (START_RGB (config app)) mask
        :: js_ticks (START_RGB (config app)) (ADD_VALUE (config app))
             (SUB_VALUE (config app)) mask seq)
  = Some (apply_mask_to_color (START_RGB (config app)) m).
Proof.
  revert mask. induction seq as [| dye rest IH]; intros mask; simpl.
  - intros [= <-]. unfold js_applyMaskToColor, apply_mask_to_color.
    by rewrite !js_round_clamp_eq.
  - destruct (apply_dye_to_mask app mask dye) as [m1 |] eqn:E; simpl;
      [| done].
    intros Hr. rewrite (js_tick_agrees _ _ _ _ E). by apply IH.
Qed.

Lemma js_ticks_length startRGB addVal subVal mask steps :
  length (js_ticks startRGB addVal subVal mask steps) = length steps.
Proof.
  revert mask. induction steps as [| name rest IH]; intros mask; simpl;
    [done |]. by rewrite IH.
Qed.

(** X24.  Where the start colour exists, the search returns, and played
    with the start colour and the add and subtract values of the
    configuration, the script paints one colour for the start and one
    per step of the returned sequence, and the last colour it paints is
    the final colour the search returned. *)
Theorem js_play_ends_on_result app target_rgb max_depth :
  projects (START_RGB (config app)) start_mask = true →
  ∃ seq mask color diff,
    find_sequence_to_target app target_rgb max_depth
    = Returned (seq, mask, color, diff)
    ∧ length (js_play (START_RGB (config app)) (ADD_VALUE (config app))
                (SUB_VALUE (config app)) seq) = S (length seq)
    ∧ last (js_play (START_RGB (config app)) (ADD_VALUE (config app))
              (SUB_VALUE (config app)) seq) = Some color.
Proof.
  intros _.
  destruct (find_sequence_to_target_run app target_rgb max_depth)
    as (trace & s & -> & Hr & _).
  exists (best_seq s), (best_mask s), (best_color s), (best_diff s).
  pose proof (invariant_reaches _ _ _ _ _ Hr) as [_ Hrb _ Hc _ _].
  split; [done |]. split.
  - unfold js_play. simpl. by rewrite js_ticks_length.
  - rewrite Hc. apply (js_play_last app start_mask). exact Hrb.
Qed.

Lemma js_play_ends_on_result_witness :
  projects (START_RGB (config initial_app)) start_mask = true
  ∧ find_sequence_to_target initial_app (255, 0, 0) (Some 1)
    = Returned (["red"], (255, 239, 239), (241, 205, 27), 246)
  ∧ js_play (241, 219, 29) 32 16 ["red"] = [(241, 219, 29); (241, 205, 27)]
  ∧ last (js_play (241, 219, 29) 32 16 ["red"]) = Some (241, 205, 27).
Proof.
  pose proof initial_app_projects as Hp.
  pose proof search_one_step as Hf.
  split; [exact Hp |]. split; [exact Hf |].
  split; [vm_compute; reflexivity |].
  destruct (js_play_ends_on_result initial_app (255, 0, 0) (Some 1) Hp)
    as (seq & mask & color & diff & Hf' & _ & Hlast).
  rewrite Hf in Hf'. injection Hf' as <- _ <- _. exact Hlast.
Defined.

(** ** The search is complete within its depth *)

Lemma expand_covers app mask seq dyes vis queue vis' queue' :
  expand app mask seq dyes vis queue = Returned (vis', queue') →
  vis ⊆ vis'
  ∧ ∀ dye m, dye ∈ dyes → apply_dye_to_mask app mask dye = Returned m →
      m ∈ vis'.
Proof.
  revert vis queue. induction dyes as [| d rest IH]; intros vis queue H.
  - injection H as <- <-. split; [done |]. intros dye m Hd.
    by apply elem_of_nil in Hd.
  - simpl in H.
    destruct (apply_dye_to_mask app mask d) as [nxt |] eqn:E; simpl in H;
      [| discriminate].
    destruct (decide (nxt ∈ vis)) as [Hin | Hnin].
    + destruct (IH _ _ H) as [Hsub Hcov]. split; [done |].
      intros dye m Hd Ha. apply elem_of_cons in Hd as [-> | Hd].
      * rewrite E in Ha. injection Ha as <-. by apply Hsub.
      * by eapply Hcov.
    + destruct (IH _ _ H) as [Hsub Hcov]. split; [set_solver |].
      intros dye m Hd Ha. apply elem_of_cons in Hd as [-> | Hd].
      * rewrite E in Ha. injection Ha as <-. apply Hsub. set_solver.
      * by eapply Hcov.
Qed.

(** An iteration that compares its node and does not leave the loop puts
    the masks of all four dye applications into [visited]. *)
Lemma step_covers app target_rgb max_depth s n s' :
  step app target_rgb max_depth s n s' →
  broke s' = false →
  Z.of_nat (length n.2) ≤ max_depth →
  ∀ dye m, dye ∈ DYES → apply_dye_to_mask app n.1 dye = Returned m →
    m ∈ visited s'.
Proof.
  intros (Hfin & Hhd & Hbody) Hb Hd.
  destruct (q s) as [| n0 q'] eqn:Hq; [done |].
  simpl in Hhd. injection Hhd as ->.
  rewrite (loop_body_cons _ _ _ s n q' Hq) in Hbody. cbv zeta in Hbody.
  destruct (Z.gtb_spec (Z.of_nat (length n.2)) max_depth); [lia |].
  destruct (_ && _).
  { injection Hbody as <-. simpl in Hb. discriminate. }
  destruct (expand app n.1 n.2 DYES (visited s) q') as [[vis' queue'] |] eqn:E;
    simpl in Hbody; [| discriminate].
  injection Hbody as <-.
  apply (expand_covers _ _ _ _ _ _ _ _ E).
Qed.

Lemma step_keeps_nodes app target_rgb max_depth trace s n s' :
  step app target_rgb max_depth s n s' →
  ∀ c, c ∈ trace ++ q s → c ∈ (trace ++ [n]) ++ q s'.
Proof.
  intros Hstep c Hc. destruct (step_inv _ _ _ _ _ _ Hstep) as [_ Hk].
  destruct Hk as [q' Hq _ -> | q' Hq _ _ _ -> | q' new Hq _ _ _ _ _ ->];
    rewrite Hq in Hc; rewrite <- app_assoc; simpl.
  1, 2: done.
  change (c ∈ trace ++ n :: q' ++ new).
  rewrite !elem_of_app, !elem_of_cons, elem_of_app in *. tauto.
Qed.

(** Every visited mask belongs to a node dequeued or queued; and while
    the loop has not been left through [break], each dye application on
    a compared node has a node for its mask, at most one dye longer. *)
Lemma reaches_closed app target_rgb max_depth trace s :
  reaches app target_rgb max_depth trace s →
  (∀ m, m ∈ visited s → ∃ n, n ∈ trace ++ q s ∧ n.1 = m)
  ∧ (broke s = false →
     ∀ n0 dye m, n0 ∈ trace → Z.of_nat (length n0.2) ≤ max_depth →
       dye ∈ DYES → apply_dye_to_mask app n0.1 dye = Returned m →
       ∃ n, n ∈ trace ++ q s ∧ n.1 = m ∧ (length n.2 ≤ S (length n0.2))%nat).
Proof.
  induction 1 as [| trace s n s' Hr [IHv IHc] Hstep].
  - split.
    + intros m Hm. simpl in Hm. apply elem_of_singleton in Hm as ->.
      exists (start_mask, []). split; [by left | done].
    + intros _ n0 dye m Hn0. by apply elem_of_nil in Hn0.
  - pose proof (step_keeps_nodes _ _ _ trace _ _ _ Hstep) as Hkeep.
    destruct (step_inv _ _ _ _ _ _ Hstep) as [Hb0 Hk].
    destruct (reaches_sorted _ _ _ _ _ Hr) as [Hsorted Hbound].
    assert (Hv' : ∀ m, m ∈ visited s' → ∃ c, c ∈ (trace ++ [n]) ++ q s' ∧ c.1 = m).
    { destruct Hk as [q' Hq _ -> | q' Hq _ _ _ -> | q' new Hq _ _ _ _ _ ->].
      1, 2: intros m Hm; destruct (IHv m Hm) as (c & Hc & <-);
            exists c; split; [by apply Hkeep | done].
      intros m Hm. change (m ∈ list_to_set new.*1 ∪ visited s) in Hm.
      apply elem_of_union in Hm as [Hm | Hm].
      - apply elem_of_list_to_set, list_elem_of_fmap in Hm as (c & -> & Hc).
        exists c. split; [| done].
        change (c ∈ (trace ++ [n]) ++ q' ++ new).
        rewrite !elem_of_app. tauto.
      - destruct (IHv m Hm) as (c & Hc & <-).
        exists c. split; [by apply Hkeep | done]. }
    split; [exact Hv' |].
    intros Hb n0 dye m Hn0 Hd Hdye Ha.
    apply elem_of_app in Hn0 as [Hn0 | Hn0].
    + destruct (IHc Hb0 n0 dye m Hn0 Hd Hdye Ha) as (c & Hc & Hm & Hlen).
      exists c. split; [by apply Hkeep | done].
    + apply list_elem_of_singleton in Hn0 as ->.
      pose proof (step_covers _ _ _ _ _ _ Hstep Hb Hd dye m Hdye Ha) as Hm.
      destruct (Hv' m Hm) as (c & Hc & <-).
      exists c. split; [done |]. split; [done |].
      assert (Hqn : ∃ q', q s = n :: q').
      { destruct Hk as [q' Hq | q' Hq | q' new Hq]; eauto. }
      destruct Hqn as [q' Hq]. rewrite Hq in *.
      assert (Hold : ∀ a, a ∈ trace ++ n :: q' →
                (length a.2 ≤ S (length n.2))%nat).
      { intros a Ha'. apply elem_of_app in Ha' as [Ha' | Ha'].
        - assert (no_longer a n); [| unfold no_longer in *; lia].
          apply (StronglySorted_app_1_elem_of _ _ _ a n Hsorted);
            [done | by left].
        - by apply (Hbound n a). }
      destruct Hk as [q'' Hq' _ -> | q'' Hq' _ _ _ -> | q'' new Hq' _ _ _ _ Hnew ->];
        rewrite Hq in Hq'; injection Hq' as <-.
      * apply Hold. by rewrite <- app_assoc in Hc.
      * apply Hold. by rewrite <- app_assoc in Hc.
      * change (c ∈ (trace ++ [n]) ++ q' ++ new) in Hc.
        rewrite app_assoc in Hc. apply elem_of_app in Hc as [Hc | Hc].
        -- apply Hold. by rewrite <- app_assoc in Hc.
        -- destruct (Hnew c Hc) as (dye' & _ & _ & ->).
           rewrite length_app. simpl. lia.
Qed.

Lemma replay_snoc_inv app mask seq dye m :
  replay app mask (seq ++ [dye]) = Returned m →
  ∃ m0, replay app mask seq = Returned m0
        ∧ apply_dye_to_mask app m0 dye = Returned m.
Proof.
  rewrite replay_app. destruct (replay app mask seq) as [m0 |]; simpl;
    [| discriminate].
  destruct (apply_dye_to_mask app m0 dye) as [m1 |] eqn:E; simpl;
    [| discriminate].
  intros [= <-]. eauto.
Qed.

Lemma apply_dye_to_mask_known app mask dye m :
  apply_dye_to_mask app mask dye = Returned m → dye ∈ DYES.
Proof.
  intros H. destruct (decide (dye ∈ DYES)) as [| Hd]; [done |].
  unfold apply_dye_to_mask in H. cbv zeta in H.
  by rewrite (dye_vector_unknown dye _ _ Hd) in H.
Qed.

(** When the loop ends with an empty queue, every mask that some
    sequence of at most [max_depth] dyes produces was dequeued, with a
    sequence no longer than that one. *)
Lemma exhausted_search_complete app target_rgb max_depth trace s :
  reaches app target_rgb max_depth trace s →
  broke s = false → q s = [] →
  ∀ seq m, replay app start_mask seq = Returned m →
    Z.of_nat (length seq) ≤ max_depth →
    ∃ n, n ∈ trace ∧ n.1 = m ∧ (length n.2 ≤ length seq)%nat.
Proof.
  intros Hr Hb Hq.
  destruct (reaches_closed _ _ _ _ _ Hr) as [_ Hclosed].
  specialize (Hclosed Hb). rewrite Hq, app_nil_r in Hclosed.
  assert (Hstart : (start_mask, []) ∈ trace).
  { destruct (reaches_trace_head _ _ _ _ _ Hr) as [-> | [rest ->]];
      [| by left].
    inversion Hr as [Ht Hs | t s0 n0 s1 _ _ Ht Hs]; [| by destruct t].
    subst s. simpl in Hq. discriminate. }
  induction seq as [| dye seq IH] using rev_ind; intros m Hm Hlen.
  - injection Hm as <-. exists (start_mask, []). done.
  - apply replay_snoc_inv in Hm as (m0 & Hm0 & Hdye).
    rewrite length_app in Hlen. simpl in Hlen.
    destruct (IH m0 Hm0 ltac:(lia)) as (n0 & Hn0 & <- & Hl0).
    destruct (Hclosed n0 dye m Hn0 ltac:(lia)
                (apply_dye_to_mask_known _ _ _ _ Hdye) Hdye)
      as (n & Hn & <- & Hl).
    exists n. rewrite length_app. simpl. repeat split; [done | lia].
Qed.

Lemma reaches_broke_zero app target_rgb max_depth trace s :
  reaches app target_rgb max_depth trace s → broke s = true → best_diff s = 0.
Proof.
  intros Hr Hb. destruct Hr as [| trace s n s' _ Hstep]; [done |].
  destruct (step_inv _ _ _ _ _ _ Hstep) as [Hb0 Hk].
  destruct Hk as [q' _ _ -> | q' _ _ _ _ -> | q' new _ _ _ _ _ _ ->].
  - simpl in Hb. congruence.
  - done.
  - assert (broke s = true); [| congruence].
    revert Hb. by destruct (diff_of app target_rgb n <? best_diff s).
Qed.

(** X25.  Where the start colour exists, the search returns, and the
    distance it returns is the least that any sequence of at most
    [max_depth] dyes can reach: no such sequence, applied to the
    identity mask, gives a colour closer to the target. *)
Theorem result_is_optimal_within_depth app target_rgb max_depth :
  projects (START_RGB (config app)) start_mask = true →
  ∃ seq mask color diff,
    find_sequence_to_target app target_rgb max_depth
    = Returned (seq, mask, color, diff)
    ∧ ∀ seq' mask',
        Z.of_nat (length seq') ≤ effective_depth app max_depth →
        replay app start_mask seq' = Returned mask' →
        diff ≤ manhattan
                 (apply_mask_to_color (START_RGB (config app)) mask')
                 target_rgb.
Proof.
  intros _.
  destruct (find_sequence_to_target_run app target_rgb max_depth)
    as (trace & s & -> & Hr & Hfin).
  exists (best_seq s), (best_mask s), (best_color s), (best_diff s).
  split; [done |]. intros seq' mask' Hlen Hrep.
  destruct (broke s) eqn:Hb.
  - rewrite (reaches_broke_zero _ _ _ _ _ Hr Hb). apply manhattan_nonneg.
  - unfold finished in Hfin. rewrite Hb in Hfin. simpl in Hfin.
    apply bool_decide_eq_true in Hfin.
    destruct (exhausted_search_complete _ _ _ _ _ Hr Hb Hfin seq' mask' Hrep Hlen)
      as (n & Hn & <- & Hl).
    apply (proj2 (reaches_best_diff _ _ _ _ _ Hr) n).
    unfold evaluated. apply list_elem_of_filter. split; [lia | done].
Qed.

Lemma result_is_optimal_within_depth_witness :
  projects (START_RGB (config initial_app)) start_mask = true
  ∧ Z.of_nat (length ["blue"]) ≤ effective_depth initial_app (Some 1)
  ∧ replay initial_app start_mask ["blue"] = Returned (239, 239, 255)
  ∧ ∃ seq mask color diff,
      find_sequence_to_target initial_app (255, 0, 0) (Some 1)
      = Returned (seq, mask, color, diff)
      ∧ diff ≤ manhattan
                 (apply_mask_to_color (START_RGB (config initial_app))
                    (239, 239, 255))
                 (255, 0, 0).
Proof.
  pose proof initial_app_projects as Hp.
  assert (Hl : Z.of_nat (length ["blue"]) ≤ effective_depth initial_app (Some 1))
    by (simpl; lia).
  assert (Hr : replay initial_app start_mask ["blue"] = Returned (239, 239, 255))
    by reflexivity.
  split; [exact Hp |]. split; [exact Hl |]. split; [exact Hr |].
  destruct (result_is_optimal_within_depth initial_app (255, 0, 0) (Some 1) Hp)
    as (seq & mask & color & diff & Hf & Hopt).
  exists seq, mask, color, diff. split; [exact Hf |].
  exact (Hopt ["blue"] (239, 239, 255) Hl Hr).
Defined.

(** ** The returned sequence is a shortest one *)

Lemma reaches_start_node app target_rgb max_depth trace s :
  reaches app target_rgb max_depth trace s →
  (start_mask, []) ∈ trace ++ q s.
Proof.
  intros Hr.
  destruct (reaches_trace_head _ _ _ _ _ Hr) as [-> | [rest ->]];
    [| by left].
  inversion Hr as [Ht Hs | t s0 n0 s1 _ _ Ht Hs]; [| by destruct t].
  by left.
Qed.

Lemma sorted_before (l1 l2 : list Node) x a c :
  StronglySorted no_longer (l1 ++ x :: l2) →
  a ∈ l1 ++ [x] → c ∈ x :: l2 → no_longer a c.
Proof.
  intros Hs Ha Hc. apply elem_of_app in Ha as [Ha | Ha].
  - by apply (StronglySorted_app_1_elem_of _ _ _ a c Hs).
  - apply list_elem_of_singleton in Ha as ->.
    apply elem_of_cons in Hc as [-> | Hc]; [unfold no_longer; lia |].
    apply (StronglySorted_app_1_elem_of no_longer (l1 ++ [x]) l2).
    + by rewrite <- app_assoc.
    + apply elem_of_app. right. by left.
    + done.
Qed.

(** While the loop has not been left through [break], a mask that a
    sequence of at most [max_depth] dyes produces either has a node, with
    a sequence no longer than that one, or the queue still holds a node
    with a strictly shorter sequence. *)
Lemma reaches_frontier app target_rgb max_depth trace s :
  reaches app target_rgb max_depth trace s →
  broke s = false →
  ∀ seq m, replay app start_mask seq = Returned m →
    Z.of_nat (length seq) ≤ max_depth →
    (∃ c, c ∈ trace ++ q s ∧ c.1 = m ∧ (length c.2 ≤ length seq)%nat)
    ∨ (∃ c, c ∈ q s ∧ (length c.2 < length seq)%nat).
Proof.
  intros Hr Hb.
  destruct (reaches_closed _ _ _ _ _ Hr) as [_ Hclosed].
  specialize (Hclosed Hb).
  induction seq as [| dye seq IH] using rev_ind; intros m Hm Hlen.
  - injection Hm as <-. left. exists (start_mask, []).
    split; [by eapply reaches_start_node | done].
  - apply replay_snoc_inv in Hm as (m0 & Hm0 & Hdye).
    rewrite length_app in *. simpl in *.
    destruct (IH m0 Hm0 ltac:(lia)) as [(n0 & Hn0 & <- & Hl0) | (c & Hc & Hl)].
    + apply elem_of_app in Hn0 as [Hn0 | Hn0].
      * destruct (Hclosed n0 dye m Hn0 ltac:(lia)
                    (apply_dye_to_mask_known _ _ _ _ Hdye) Hdye)
          as (n & Hn & <- & Hl).
        left. exists n. repeat split; [done | lia].
      * right. exists n0. split; [done | lia].
    + right. exists c. split; [done | lia].
Qed.

(** The same at any state of a run, in terms of the order of the
    dequeued nodes. *)
Lemma reaches_complete app target_rgb max_depth trace s :
  reaches app target_rgb max_depth trace s →
  ∀ seq m, replay app start_mask seq = Returned m →
    Z.of_nat (length seq) ≤ max_depth →
    (∃ c, c ∈ trace ++ q s ∧ c.1 = m ∧ (length c.2 ≤ length seq)%nat)
    ∨ (∃ c, (∀ a, a ∈ trace → no_longer a c)
            ∧ (length c.2 < length seq)%nat).
Proof.
  intros Hr seq m Hm Hlen. destruct (broke s) eqn:Hb.
  - destruct Hr as [| trace s n s' Hr Hstep]; [done |].
    destruct (step_inv _ _ _ _ _ _ Hstep) as [Hb0 Hk].
    destruct (reaches_sorted _ _ _ _ _ Hr) as [Hsorted _].
    assert (Hq : ∃ q', q s = n :: q').
    { destruct Hk as [q' Hq | q' Hq | q' new Hq]; eauto. }
    destruct Hq as [q' Hq].
    destruct (reaches_frontier _ _ _ _ _ Hr Hb0 seq m Hm Hlen)
      as [(c & Hc & Hcm & Hl) | (c & Hc & Hl)].
    + left. exists c. split; [| done].
      by apply (step_keeps_nodes _ _ _ trace _ _ _ Hstep).
    + right. exists c. split; [| done]. intros a Ha.
      rewrite Hq in Hsorted, Hc. by apply (sorted_before trace q' n).
  - destruct (reaches_sorted _ _ _ _ _ Hr) as [Hsorted _].
    destruct (reaches_frontier _ _ _ _ _ Hr Hb seq m Hm Hlen)
      as [(c & Hc & Hcm & Hl) | (c & Hc & Hl)].
    + left. by exists c.
    + right. exists c. split; [| done]. intros a Ha.
      by apply (StronglySorted_app_1_elem_of _ _ _ a c Hsorted).
Qed.

(** X26.  Where the start colour exists, the search returns, and the
    returned sequence is a shortest one for the returned distance: no
    sequence of at most [max_depth] dyes that brings the base colour to
    that distance from the target is shorter. *)
Theorem result_is_shortest app target_rgb max_depth :
  projects (START_RGB (config app)) start_mask = true →
  ∃ seq mask color diff,
    find_sequence_to_target app target_rgb max_depth
    = Returned (seq, mask, color, diff)
    ∧ ∀ seq' mask',
        Z.of_nat (length seq') ≤ effective_depth app max_depth →
        replay app start_mask seq' = Returned mask' →
        manhattan (apply_mask_to_color (START_RGB (config app)) mask')
          target_rgb = diff →
        (length seq ≤ length seq')%nat.
Proof.
  intros _.
  destruct (find_sequence_to_target_run app target_rgb max_depth)
    as (trace & s & -> & Hr & _).
  exists (best_seq s), (best_mask s), (best_color s), (best_diff s).
  split; [done |]. intros seq' mask' Hlen Hrep Hdiff.
  destruct (reaches_first_least _ _ _ _ _ Hr)
    as [Hinit | (before & n & after & -> & Hres & Hn & _ & Hfirst)].
  { injection Hinit as -> _ _ _. simpl. lia. }
  injection Hres as Hseq _ _ Hd. rewrite Hseq.
  destruct (reaches_sorted _ _ _ _ _ Hr) as [Hsorted _].
  destruct (reaches_complete _ _ _ _ _ Hr seq' mask' Hrep Hlen)
    as [(c & Hc & Hcm & Hl) | (c & Hc & Hl)].
  - rewrite <- app_assoc in Hc, Hsorted. simpl in Hc, Hsorted.
    apply elem_of_app in Hc as [Hc | Hc].
    + assert (diff_of app target_rgb n < diff_of app target_rgb c); [| ].
      { apply Hfirst. unfold evaluated. apply list_elem_of_filter.
        split; [lia | done]. }
      assert (diff_of app target_rgb c = best_diff s).
      { unfold diff_of, color_of. by rewrite Hcm. }
      lia.
    + assert (no_longer n c); [| unfold no_longer in *; lia].
      apply (sorted_before before (after ++ q s) n); [done | | done].
      apply elem_of_app. right. by left.
  - assert (no_longer n c); [| unfold no_longer in *; lia].
    apply Hc. apply elem_of_app. right. by left.
Qed.

Lemma result_is_shortest_witness :
  ∃ seq mask color diff,
    find_sequence_to_target initial_app (226, 164, 27) (Some 3)
    = Returned (seq, mask, color, diff)
    ∧ projects (START_RGB (config initial_app)) start_mask = true
    ∧ Z.of_nat (length ["black"; "blue"; "red"])
      ≤ effective_depth initial_app (Some 3)
    ∧ replay initial_app start_mask ["black"; "blue"; "red"]
      = Returned (239, 191, 239)
    ∧ manhattan
        (apply_mask_to_color (START_RGB (config initial_app)) (239, 191, 239))
        (226, 164, 27) = diff
    ∧ (length seq ≤ length ["black"; "blue"; "red"])%nat.
Proof.
  pose proof initial_app_projects as Hp.
  destruct (result_is_shortest initial_app (226, 164, 27) (Some 3) Hp)
    as (seq & mask & color & diff & Hf & Hshort).
  exists seq, mask, color, diff.
  assert (Hl : Z.of_nat (length ["black"; "blue"; "red"])
               ≤ effective_depth initial_app (Some 3)) by (simpl; lia).
  assert (Hr : replay initial_app start_mask ["black"; "blue"; "red"]
               = Returned (239, 191, 239)) by reflexivity.
  assert (Hd : manhattan
                 (apply_mask_to_color (START_RGB (config initial_app))
                    (239, 191, 239))
                 (226, 164, 27) = diff).
  { assert (H : find_sequence_to_target initial_app (226, 164, 27) (Some 3)
                = Returned (["black"; "red"; "blue"], (239, 191, 239),
                            (226, 164, 27), 0)) by (vm_compute; reflexivity).
    rewrite H in Hf. by injection Hf as <- <- <- <-. }
  split; [exact Hf |]. split; [exact Hp |]. split; [exact Hl |].
  split; [exact Hr |]. split; [exact Hd |]. exact (Hshort _ _ Hl Hr Hd).
Defined.
